(** * Major-system optimizer: phonetic encoding, validation and homonym grouping

    A shallow embedding of the algorithmic core of the word list component
    ([wordToPhonetics], [phoneticToDigit], [validateWord],
    [getValidPositionsForWord], [homonymConflicts]) and of the homonym
    service ([groupHomonyms]), followed by the properties of the design
    document checked against them; then the rest of the component (phonetic
    breakdown, hints, export and import, statistics), the other functions of
    the homonym service, and the tabs with their storage. *)

From Stdlib Require Import NArith List Ascii String Decimal.
From stdpp Require Import base decidable option list gmap.

Local Open Scope N_scope.

(** ** Strings

    A JavaScript string is a sequence of 16-bit code units.  A code unit is a
    number [N]; literals of the source are written [js "..."]. *)

Abbreviation jstr := (list N).

Definition js (s : string) : jstr :=
  map N_of_ascii (list_ascii_of_string s).

Definition unit_of (a : ascii) : N := N_of_ascii a.

Module Str.

(** [String.prototype.trim] removes white space and line terminators:
    TAB, LF, VT, FF, CR, SP, NBSP, U+1680, U+2000..U+200A, U+2028, U+2029,
    U+202F, U+205F, U+3000 and U+FEFF. *)
Definition isWhiteSpace (c : N) : bool :=
  bool_decide (c ∈ [9; 10; 11; 12; 13; 32; 160; 5760; 8232; 8233; 8239;
                    8287; 12288; 65279])
  || ((8192 <=? c) && (c <=? 8202)).

Fixpoint trimStart (s : jstr) : jstr :=
  match s with
  | [] => []
  | c :: s' => if isWhiteSpace c then trimStart s' else s
  end.

Definition trimEnd (s : jstr) : jstr := reverse (trimStart (reverse s)).

Definition trim (s : jstr) : jstr := trimEnd (trimStart s).

(** [!s] for a string: the empty string is the only falsy one. *)
Definition falsy (s : jstr) : bool :=
  match s with [] => true | _ => false end.

(** Lower-casing of one code unit.  The source calls
    [String.prototype.toLowerCase], which follows the Unicode case
    mappings.  The model carries those of Basic Latin and Latin-1, and the
    two mappings of code units beyond Latin-1 whose result holds an ASCII
    letter: U+212A KELVIN SIGN becomes [k], and U+0130 becomes [i] followed
    by U+0307.  No other code unit has a letter [a]..[z] in its lower-case
    form; the model keeps those as they are, which leaves
    [toLowerCase().replace(/[^a-z]/g, '')] exact. *)
Definition lowerUnit (c : N) : jstr :=
  if (65 <=? c) && (c <=? 90) then [c + 32]
  else if (192 <=? c) && (c <=? 222) && negb (c =? 215) then [c + 32]
  else if c =? 304 then [105; 775]
  else if c =? 8490 then [107]
  else [c].

Definition toLowerCase (s : jstr) : jstr := s ≫= lowerUnit.

(** The class [a-z] of the regular expression [/[^a-z]/g]. *)
Definition isLowerAZ (c : N) : bool := (97 <=? c) && (c <=? 122).

(** [s.replace(/[^a-z]/g, '')]. *)
Definition stripNonLetters (s : jstr) : jstr :=
  filter (λ c, isLowerAZ c = true) s.

(** [s.split('')]: one string per code unit. *)
Definition split (s : jstr) : list jstr := map (λ c, [c]) s.

(** [s.padStart(n, pad)] for a one-unit [pad]. *)
Definition padStart (n : nat) (pad : N) (s : jstr) : jstr :=
  replicate (n - length s) pad ++ s.

Fixpoint uint_units (d : Decimal.uint) : jstr :=
  match d with
  | Nil => []
  | D0 d => 48 :: uint_units d
  | D1 d => 49 :: uint_units d
  | D2 d => 50 :: uint_units d
  | D3 d => 51 :: uint_units d
  | D4 d => 52 :: uint_units d
  | D5 d => 53 :: uint_units d
  | D6 d => 54 :: uint_units d
  | D7 d => 55 :: uint_units d
  | D8 d => 56 :: uint_units d
  | D9 d => 57 :: uint_units d
  end.

(** [i.toString()] for a non-negative integer. *)
Definition toString (i : nat) : jstr := uint_units (Nat.to_uint i).

End Str.

(** ** Values held in the arrays of the validator

    Reading a property of an object literal yields its own value, or a member
    inherited from [Object.prototype], or [undefined]. *)

Inductive value : Type :=
  | VStr (s : jstr)
  | VProto (name : jstr).

Global Instance value_eq_dec : EqDecision value.
Proof. solve_decision. Defined.

Definition objectPrototypeNames : list jstr :=
  map js ["constructor"; "hasOwnProperty"; "isPrototypeOf";
          "propertyIsEnumerable"; "toLocaleString"; "toString"; "valueOf";
          "__proto__"; "__defineGetter__"; "__defineSetter__";
          "__lookupGetter__"; "__lookupSetter__"]%string.

Definition inherited (k : jstr) : bool :=
  bool_decide (k ∈ objectPrototypeNames).

(** [o[k]] for an object literal [o] with string values; [None] is
    [undefined]. *)
Definition getProperty (o : gmap jstr jstr) (k : jstr) : option value :=
  match o !! k with
  | Some v => Some (VStr v)
  | None => if inherited k then Some (VProto k) else None
  end.

Definition truthy (v : value) : bool :=
  match v with
  | VStr s => negb (Str.falsy s)
  | VProto _ => true
  end.

(** ** The phonetic encoder *)

Definition is_unit (a : ascii) (c : N) : bool := c =? unit_of a.

(** [nextChar === 'x'], where [nextChar] is [undefined] past the end. *)
Definition next_is (a : ascii) (nextChar : option N) : bool :=
  match nextChar with
  | Some c => is_unit a c
  | None => false
  end.

(** The body of the [for] loop of [wordToPhonetics], by recursion on the part
    of [normalized] that starts at index [i]: [char] is its head, [nextChar]
    the head of the rest; [i++; continue] resumes after [nextChar]. *)
Fixpoint wordToPhonetics_loop (normalized : jstr) : list jstr :=
  match normalized with
  | [] => []
  | char :: rest =>
    let nextChar := head rest in
    let after_two :=
      match rest with
      | [] => []
      | _ :: rest' => wordToPhonetics_loop rest'
      end in
    if is_unit "c" char && next_is "h" nextChar then js "ch" :: after_two
    else if is_unit "s" char && next_is "h" nextChar then js "sh" :: after_two
    else if is_unit "t" char && next_is "h" nextChar then js "th" :: after_two
    else if is_unit "p" char && next_is "h" nextChar then js "ph" :: after_two
    else if is_unit "q" char && next_is "u" nextChar then js "qu" :: after_two
    else if is_unit "c" char then
      (if next_is "e" nextChar || next_is "i" nextChar || next_is "y" nextChar
       then js "s" else js "k") :: wordToPhonetics_loop rest
    else if is_unit "g" char then
      (if next_is "e" nextChar || next_is "i" nextChar || next_is "y" nextChar
       then js "j" else js "g") :: wordToPhonetics_loop rest
    else [char] :: wordToPhonetics_loop rest
  end.

Definition normalize (word : jstr) : jstr :=
  Str.stripNonLetters (Str.toLowerCase word).

Definition wordToPhonetics (word : jstr) : list jstr :=
  wordToPhonetics_loop (normalize word).

(** ** The digit mapper *)

(** The properties of the object literal [digitMap]. *)
Definition digitMap_entries : list (jstr * jstr) :=
  [ (js "s", js "0"); (js "z", js "0");
    (js "t", js "1"); (js "d", js "1"); (js "th", js "1");
    (js "n", js "2");
    (js "m", js "3");
    (js "r", js "4");
    (js "l", js "5");
    (js "j", js "6"); (js "sh", js "6"); (js "ch", js "6");
    (js "k", js "7"); (js "g", js "7"); (js "q", js "7"); (js "qu", js "7");
    (js "f", js "8"); (js "v", js "8"); (js "ph", js "8");
    (js "p", js "9"); (js "b", js "9") ].

Definition digitMap : gmap jstr jstr := list_to_map digitMap_entries.

(** [digitMap[phonetic] || null]; [None] is [null]. *)
Definition phoneticToDigit (phonetic : jstr) : option value :=
  match getProperty digitMap phonetic with
  | Some v => if truthy v then Some v else None
  | None => None
  end.

(** ** The pattern validator *)

(** [phonetics.map(p => phoneticToDigit(p)).filter(d => d !== null)]. *)
Definition digitsOf (phonetics : list jstr) : list value :=
  omap phoneticToDigit phonetics.

Definition wordDigits (word : jstr) : list value :=
  digitsOf (wordToPhonetics word).

(** Search of [x] in [l], whose head has index [i]. *)
Fixpoint indexOf_go (l : list value) (x : value) (i : nat) : option nat :=
  match l with
  | [] => None
  | y :: l' => if bool_decide (y = x) then Some i else indexOf_go l' x (S i)
  end.

(** [l.indexOf(x, fromIndex)]; [None] stands for the result [-1]. *)
Definition indexOf (l : list value) (x : value) (fromIndex : nat) : option nat :=
  indexOf_go (drop fromIndex l) x fromIndex.

(** The [for ... of] loop of [validateWord] with its cursor [wordIndex]. *)
Fixpoint validateWord_loop (expectedDigits : list jstr)
    (wordDigits : list value) (wordIndex : nat) : bool :=
  match expectedDigits with
  | [] => true
  | expectedDigit :: rest =>
    match indexOf wordDigits (VStr expectedDigit) wordIndex with
    | None => false
    | Some digitIndex => validateWord_loop rest wordDigits (digitIndex + 1)
    end
  end.

Definition validateWord (num word : jstr) : bool :=
  if Str.falsy (Str.trim word) then true
  else
    let expectedDigits := Str.split num in
    if (length expectedDigits =? 0)%nat then true
    else validateWord_loop expectedDigits (wordDigits word) 0.

(** The key of slot [i]: [i.toString().padStart(2, '0')]. *)
Definition keyOf (i : nat) : jstr :=
  Str.padStart 2 (unit_of "0") (Str.toString i).

Definition getValidPositionsForWord (word : jstr) : list jstr :=
  if Str.falsy (Str.trim word) then []
  else filter (λ num, validateWord num word = true) (keyOf <$> seq 0 100).


(** ** Insertion-ordered maps and sets

    A JavaScript [Map] keeps its entries in insertion order, [set] on a
    present key replaces the value in place; a [Set] keeps the first
    occurrence of each element. *)

Module JsMap.
Section Defs.
Context {V : Type}.

Fixpoint get (m : list (jstr * V)) (k : jstr) : option V :=
  match m with
  | [] => None
  | (k', v) :: m' => if decide (k' = k) then Some v else get m' k
  end.

Definition has (m : list (jstr * V)) (k : jstr) : bool :=
  match get m k with Some _ => true | None => false end.

Fixpoint set (m : list (jstr * V)) (k : jstr) (v : V) : list (jstr * V) :=
  match m with
  | [] => [(k, v)]
  | (k', v') :: m' =>
    if decide (k' = k) then (k', v) :: m' else (k', v') :: set m' k v
  end.
End Defs.

(** [if (!m.has(k)) m.set(k, []); m.get(k)!.push(v)]: the array stored
    under [k] is extended in place. *)
Definition push {A} (m : list (jstr * list A)) (k : jstr) (v : A) :
    list (jstr * list A) :=
  let m1 := if negb (has m k) then set m k [] else m in
  match get m1 k with
  | Some arr => set m1 k (arr ++ [v])
  | None => m1
  end.
End JsMap.

Module JsSet.
(** [s.add(x)]. *)
Definition add (s : list jstr) (x : jstr) : list jstr :=
  if bool_decide (x ∈ s) then s else s ++ [x].

(** [new Set(l)], read back as an array. *)
Definition of_list (l : list jstr) : list jstr := foldl add [] l.
End JsSet.

(** ** Homonym grouping *)

Record HomonymGroup : Type := {
  phoneticCode : jstr;
  words : list jstr
}.

Section Homonyms.

(** The Double Metaphone of the package [double-metaphone]: primary and
    secondary code of a word.  Only the primary code is read. *)
Variable doubleMetaphone : jstr → jstr * jstr.

Definition groupHomonyms_collect (caseSensitive : bool)
    (phoneticMap : list (jstr * list jstr)) (word : jstr) :
    list (jstr * list jstr) :=
  let normalizedWord := if caseSensitive then word else Str.toLowerCase word in
  let trimmedWord := Str.trim normalizedWord in
  if Str.falsy trimmedWord then phoneticMap
  else
    let phoneticCode := (doubleMetaphone trimmedWord).1 in
    JsMap.push phoneticMap phoneticCode trimmedWord.

Definition groupHomonyms_filter (homonymGroups : list HomonymGroup)
    (entry : jstr * list jstr) : list HomonymGroup :=
  let '(phoneticCode, groupWords) := entry in
  if (1 <? length groupWords)%nat
  then homonymGroups ++
       [{| phoneticCode := phoneticCode; words := JsSet.of_list groupWords |}]
  else homonymGroups.

Definition groupHomonyms (words : list jstr) (caseSensitive : bool) :
    list HomonymGroup :=
  let phoneticMap := foldl (groupHomonyms_collect caseSensitive) [] words in
  foldl groupHomonyms_filter [] phoneticMap.

(** [Object.entries(words)], filtered and mapped. *)
Definition filledWords (entries : list (jstr * jstr)) : list (jstr * jstr) :=
  (λ e, (e.1, Str.toLowerCase (Str.trim e.2)))
    <$> filter (λ e, negb (Str.falsy e.2) && negb (Str.falsy (Str.trim e.2)) = true)
          entries.

Definition numbersOfGroup (wordToNumbers : list (jstr * list jstr))
    (group : HomonymGroup) : list jstr :=
  foldl (λ numbersInGroup word,
           foldl JsSet.add numbersInGroup
             (default [] (JsMap.get wordToNumbers word)))
        [] (words group).

Definition conflicts_of_group (wordToNumbers : list (jstr * list jstr))
    (conflicts : list (jstr * list jstr)) (group : HomonymGroup) :
    list (jstr * list jstr) :=
  let numbersList := numbersOfGroup wordToNumbers group in
  if (1 <? length numbersList)%nat
  then foldl (λ conflicts num,
                JsMap.set conflicts num (filter (λ n, n ≠ num) numbersList))
             conflicts numbersList
  else conflicts.

(** The conflict map computed from the entries of the [words] object. *)
Definition homonymConflicts (entries : list (jstr * jstr)) :
    list (jstr * list jstr) :=
  let filledWords := filledWords entries in
  if (length filledWords =? 0)%nat then []
  else
    let wordToNumbers :=
      foldl (λ m e, JsMap.push m e.2 e.1) [] filledWords in
    let allWords := filledWords.*2 in
    let homonymGroups := groupHomonyms allWords false in
    foldl (conflicts_of_group wordToNumbers) [] homonymGroups.

End Homonyms.

(** A stand-in for the phonetic key, for concrete runs only: the first
    consonant symbol of the word. *)
Definition firstSound (w : jstr) : jstr * jstr :=
  let code := default [] (head (filter (λ p, phoneticToDigit p ≠ None) (wordToPhonetics w))) in
  (code, code).

(** * Notions used in the statements *)

(** The string neither starts nor ends with white space. *)
Definition trimmed (s : jstr) : Prop :=
  (∀ c, head s = Some c → Str.isWhiteSpace c = false)
  ∧ (∀ c, last s = Some c → Str.isWhiteSpace c = false).

(** The word is empty or holds white space only. *)
Definition blank (s : jstr) : Prop := Forall (λ c, Str.isWhiteSpace c = true) s.

(** [i] is the first index at or after [from] at which [l] holds [x]. *)
Definition first_at (l : list value) (x : value) (from i : nat) : Prop :=
  (from ≤ i)%nat ∧ l !! i = Some x
  ∧ ∀ k, (from ≤ k < i)%nat → l !! k ≠ Some x.

Definition isAsciiLetter (c : N) : bool :=
  ((65 <=? c) && (c <=? 90)) || ((97 <=? c) && (c <=? 122)).

(** U+212A KELVIN SIGN, whose lower-case form is the letter k. *)
Definition kelvinSign : N := 8490.

Definition isDigit (c : N) : bool := (48 <=? c) && (c <=? 57).

(** The keys "00".."99": two decimal digits. *)
Definition twoDigitKey (k : jstr) : bool :=
  match k with
  | [d1; d2] => isDigit d1 && isDigit d2
  | _ => false
  end.

Definition allKeys : list jstr := keyOf <$> seq 0 100.

(** The major-system grouping in the words of the design document: each digit
    with the symbols assigned to it. *)
Definition majorSystem : list (list string * string) :=
  [ (["s"; "z"], "0"); (["t"; "d"; "th"], "1"); (["n"], "2"); (["m"], "3");
    (["r"], "4"); (["l"], "5"); (["j"; "sh"; "ch"], "6");
    (["k"; "g"; "q"; "qu"], "7"); (["f"; "v"; "ph"], "8");
    (["p"; "b"], "9") ]%string.

(** [toDigit] of the design document: the digit of the group that lists the
    symbol, none when no group does. *)
Definition toDigit (symbol : jstr) : option jstr :=
  (λ e, js e.2) <$> List.find (λ e, bool_decide (symbol ∈ js <$> e.1)) majorSystem.

(** The letters whose digit depends on the letter that follows: c (ch, soft
    c), g (soft g), s (sh) and p (ph).  The digraphs th and qu carry the digit
    of their first letter. *)
Definition contextLetter (c : N) : bool :=
  is_unit "c" c || is_unit "g" c || is_unit "s" c || is_unit "p" c.

(** The string does not end in a context letter. *)
Definition safe_end (l : jstr) : bool :=
  match last l with
  | Some c => negb (contextLetter c)
  | None => true
  end.

(** The digits of an already normalised string. *)
Definition loopDigits (l : jstr) : list value := digitsOf (wordToPhonetics_loop l).

(** One optional [push]. *)
Definition pushOpt {B} (m : list (jstr * list B)) (o : option (jstr * B)) :
    list (jstr * list B) :=
  match o with
  | Some (k, v) => JsMap.push m k v
  | None => m
  end.

(** The values pushed under key [k] by a run over [l], in order. *)
Definition pushed {A B} (f : A → option (jstr * B)) (l : list A) (k : jstr) :
    list B :=
  (filter (λ e, e.1 = k) (omap f l)).*2.

(** What one word contributes to [phoneticMap]: its code and its trimmed
    form, nothing when the trimmed form is empty. *)
Definition collected (doubleMetaphone : jstr → jstr * jstr)
    (caseSensitive : bool) (word : jstr) : option (jstr * jstr) :=
  let trimmedWord :=
    Str.trim (if caseSensitive then word else Str.toLowerCase word) in
  if Str.falsy trimmedWord then None
  else Some ((doubleMetaphone trimmedWord).1, trimmedWord).

(** The group made of one entry of [phoneticMap], if any. *)
Definition groupOf (entry : jstr * list jstr) : option HomonymGroup :=
  if (1 <? length entry.2)%nat
  then Some {| phoneticCode := entry.1; words := JsSet.of_list entry.2 |}
  else None.

(** [b] is listed among the conflicts of [a]. *)
Definition conflictsWith (conflicts : list (jstr * list jstr)) (a b : jstr) : Prop :=
  ∃ l, JsMap.get conflicts a = Some l ∧ b ∈ l.


(** * The rest of the word list component *)

(** ** The phonetic breakdown shown under a word *)

Module Breakdown.
Record item : Type := { sound : jstr; digit : option value }.
End Breakdown.

Definition getPhoneticBreakdown (word : jstr) : list Breakdown.item :=
  if Str.falsy (Str.trim word) then []
  else
    let phonetics := wordToPhonetics word in
    (λ sound, {| Breakdown.sound := sound;
                 Breakdown.digit := phoneticToDigit sound |}) <$> phonetics.

(** ** The hint of a key *)

Module Text.

(** [l.join(sep)]. *)
Fixpoint join (sep : jstr) (l : list jstr) : jstr :=
  match l with
  | [] => []
  | [x] => x
  | x :: l' => x ++ sep ++ join sep l'
  end.

(** [s.split(sep)] for a separator of one code unit; the empty string gives
    one empty piece. *)
Fixpoint split (sep : N) (s : jstr) : list jstr :=
  match s with
  | [] => [[]]
  | c :: s' =>
    if c =? sep then [] :: split sep s'
    else match split sep s' with
         | piece :: pieces => (c :: piece) :: pieces
         | [] => [[c]]
         end
  end.

(** LINE FEED, the separator of the text format. *)
Definition LF : N := 10.

(** The code units that [.] of a regular expression does not match:
    LF, CR, U+2028, U+2029. *)
Definition isLineTerminator (c : N) : bool :=
  bool_decide (c ∈ [10; 13; 8232; 8233]).

(** [\d] of a regular expression. *)
Definition isDecimal (c : N) : bool := (48 <=? c) && (c <=? 57).

(** [.+$] on what is left of the line: all of it, when it is not empty and
    holds no line terminator. *)
Definition matchDotPlus (rest : jstr) : option jstr :=
  match rest with
  | [] => None
  | _ :: _ =>
    if forallb (λ c, negb (isLineTerminator c)) rest then Some rest else None
  end.

(** [\s*(.+)$]: the greedy [\s*] takes white space as long as it can and
    gives it back, one unit at a time, until [(.+)$] matches; the result is
    the capture of [(.+)]. *)
Fixpoint matchSpacesDotPlus (rest : jstr) : option jstr :=
  match rest with
  | [] => None
  | c :: rest' =>
    if Str.isWhiteSpace c then
      match matchSpacesDotPlus rest' with
      | Some capture => Some capture
      | None => matchDotPlus rest
      end
    else matchDotPlus rest
  end.

(** [line.match(/^(\d{2}):\s*(.+)$/)]: the two captures, or [None] for
    [null]. *)
Definition matchLine (line : jstr) : option (jstr * jstr) :=
  match line with
  | d1 :: d2 :: colon :: rest =>
    if isDecimal d1 && isDecimal d2 && (colon =? unit_of ":")
    then (λ capture, ([d1; d2], capture)) <$> matchSpacesDotPlus rest
    else None
  | _ => None
  end.

End Text.

(** The mapping passed by [App]. *)
Definition defaultMapping_entries : list (jstr * jstr) :=
  [ (js "0", js "s"); (js "1", js "t"); (js "2", js "n"); (js "3", js "m");
    (js "4", js "r"); (js "5", js "l"); (js "6", js "sh"); (js "7", js "k");
    (js "8", js "f"); (js "9", js "p") ].

Definition defaultMapping : gmap jstr jstr := list_to_map defaultMapping_entries.

(** [mapping[d] || '?'] for a string [d] of one code unit.  Such a string
    names no member of [Object.prototype], so the third case does not
    arise. *)
Definition patternOf (mapping : gmap jstr jstr) (d : jstr) : jstr :=
  match getProperty mapping d with
  | Some (VStr phoneme) => if Str.falsy phoneme then js "?" else phoneme
  | Some (VProto _) => js "?"
  | None => js "?"
  end.

Definition getExpectedPattern (mapping : gmap jstr jstr) (num : jstr) : jstr :=
  let digits := Str.split num in
  Text.join (js " + ") (patternOf mapping <$> digits).

(** ** Export and import of the table as text *)

(** The text that [exportWords] puts into the downloaded file. *)
Definition exportWords (entries : list (jstr * jstr)) : jstr :=
  Text.join [Text.LF]
    ((λ e, e.1 ++ js ": " ++ e.2)
       <$> filter (λ e, Str.falsy (Str.trim e.2) = false) entries).

(** The table that the [onload] handler of [importWords] passes to
    [setWords], from the text of the file. *)
Definition importWords (text : jstr) : gmap jstr jstr :=
  foldl (λ imported line,
           match Text.matchLine line with
           | Some (num, capture) => <[num := Str.trim capture]> imported
           | None => imported
           end)
        ∅ (Text.split Text.LF text).

(** ** The entries of the grid and the statistics *)

Module Entry.
Record t : Type := {
  word : jstr;
  isValid : bool;
  homonymNumbers : option (list jstr);
  validPositions : option (list jstr)
}.
End Entry.

Section WordEntries.

Variable doubleMetaphone : jstr → jstr * jstr.

(** [words[num] || ''] for the [words] object with the given entries. *)
Definition wordAt (entries : list (jstr * jstr)) (num : jstr) : jstr :=
  default [] (JsMap.get entries num).

Definition wordEntry (entries : list (jstr * jstr)) (num : jstr) : Entry.t :=
  let word := wordAt entries num in
  let allValidPositions :=
    if Str.falsy (Str.trim word) then [] else getValidPositionsForWord word in
  let otherPositions := filter (λ pos, pos ≠ num) allValidPositions in
  {| Entry.word := word;
     Entry.isValid := validateWord num word;
     Entry.homonymNumbers := JsMap.get (homonymConflicts doubleMetaphone entries) num;
     Entry.validPositions :=
       if (0 <? length otherPositions)%nat then Some otherPositions else None |}.

Definition wordEntries (entries : list (jstr * jstr)) : list (jstr * Entry.t) :=
  (λ i, let num := keyOf i in (num, wordEntry entries num)) <$> seq 0 100.

Definition filledCount (entries : list (jstr * jstr)) : nat :=
  length (filter (λ w, Str.falsy (Str.trim w) = false) entries.*2).

Definition validCount (entries : list (jstr * jstr)) : nat :=
  length (filter (λ e, negb (Str.falsy (Str.trim (Entry.word e.2)))
                       && Entry.isValid e.2 = true)
                 (wordEntries entries)).

Definition homonymCount (entries : list (jstr * jstr)) : nat :=
  length (homonymConflicts doubleMetaphone entries).

End WordEntries.

(** ** The other functions of the homonym service *)

Section HomonymService.

Variable doubleMetaphone : jstr → jstr * jstr.



End HomonymService.

(** * Tabs and their storage *)

(** The key under which [useLocalStorage] keeps a value:
    [namespace ? `${key}-${namespace}` : key]. *)
Definition fullKey (key : jstr) (namespace : option jstr) : jstr :=
  match namespace with
  | Some ns => if Str.falsy ns then key else key ++ js "-" ++ ns
  | None => key
  end.

(** The keys that the word list component uses, each with the id of its tab
    as name space. *)
Definition wordListKeys : list jstr :=
  [js "phonetic-words"; js "phonetic-hasGenerated"; js "phonetic-showPhonetics"].

Module Tab.
Record t : Type := { id : jstr; name : jstr; createdAt : N }.
End Tab.

(** The state of [useTabManager]: its two stored values and the local
    storage of the browser. *)
Record TabState : Type := {
  tabs : list Tab.t;
  activeTabId : option jstr;
  storage : gmap jstr jstr
}.

Section TabManager.

(** [JSON.stringify] on the two kinds of values that are stored. *)
Variable stringifyTabs : list Tab.t → jstr.
Variable stringifyId : option jstr → jstr.

(** [setValue] of [useLocalStorage('phonetic-tabs', [])] with a plain
    value: the state is set and the item is written ([setItem] is taken to
    succeed). *)
Definition setTabs (st : TabState) (value : list Tab.t) : TabState :=
  {| tabs := value;
     activeTabId := activeTabId st;
     storage := <[fullKey (js "phonetic-tabs") None := stringifyTabs value]> (storage st) |}.

(** [setValue] of [useLocalStorage('phonetic-activeTab', null)]. *)
Definition setActiveTabId (st : TabState) (value : option jstr) : TabState :=
  {| tabs := tabs st;
     activeTabId := value;
     storage := <[fullKey (js "phonetic-activeTab") None := stringifyId value]> (storage st) |}.

Definition keysToRemove (tabId : jstr) : list jstr :=
  [ js "phonetic-words-" ++ tabId;
    js "phonetic-hasGenerated-" ++ tabId;
    js "phonetic-showPhonetics-" ++ tabId;
    js "phonetic-similarityThreshold-" ++ tabId;
    js "phonetic-showEmbeddingViz-" ++ tabId;
    js "phonetic-abstractnessScores-" ++ tabId;
    js "phonetic-wordEmbeddings-" ++ tabId;
    js "phonetic-semanticNeighbors-" ++ tabId ].

Definition cleanupTabStorage (tabId : jstr) (store : gmap jstr jstr) : gmap jstr jstr :=
  foldl (λ store key, delete key store) store (keysToRemove tabId).

(** [tabs.find(t => t.id === activeTabId) || null]. *)
Definition activeTab (st : TabState) : option Tab.t :=
  List.find (λ t, bool_decide (Some (Tab.id t) = activeTabId st)) (tabs st).


(** [addTab(name)]; [None] is a call without argument. *)
Definition addTab (st : TabState) (newId : jstr) (now : N) (name : option jstr) :
    TabState * Tab.t :=
  let generated := js "System " ++ Str.toString (length (tabs st) + 1) in
  let newTab :=
    {| Tab.id := newId;
       Tab.name := match name with
                   | Some n => if Str.falsy n then generated else n
                   | None => generated
                   end;
       Tab.createdAt := now |} in
  (setActiveTabId (setTabs st (tabs st ++ [newTab])) (Some (Tab.id newTab)), newTab).

Definition removeTab (st : TabState) (tabId : jstr) : TabState :=
  let newTabs := filter (λ t, Tab.id t ≠ tabId) (tabs st) in
  let st1 := setTabs st newTabs in
  let st2 :=
    match newTabs with
    | first :: _ =>
      if bool_decide (activeTabId st = Some tabId)
      then setActiveTabId st1 (Some (Tab.id first))
      else st1
    | [] => st1
    end in
  {| tabs := tabs st2;
     activeTabId := activeTabId st2;
     storage := cleanupTabStorage tabId (storage st2) |}.

Definition renameTab (st : TabState) (tabId newName : jstr) : TabState :=
  setTabs st
    ((λ t, if bool_decide (Tab.id t = tabId)
           then {| Tab.id := Tab.id t; Tab.name := newName;
                   Tab.createdAt := Tab.createdAt t |}
           else t) <$> tabs st).

(** [handleRemove] of the tab bar; [confirmed] is the answer to
    [confirm(...)]. *)
Definition handleRemove (st : TabState) (tabId : jstr) (confirmed : bool) : TabState :=
  if (length (tabs st) =? 1)%nat then st
  else if confirmed then removeTab st tabId
  else st.

(** [handleFinishEdit] of the tab bar, with the text of the input field;
    the editing state of the bar itself is left out. *)
Definition handleFinishEdit (st : TabState) (tabId editingName : jstr) : TabState :=
  if Str.falsy (Str.trim editingName) then st
  else renameTab st tabId (Str.trim editingName).

(** Some tab exists, ids are pairwise distinct, and the active id is the id
    of a tab. *)
Definition tabsConsistent (st : TabState) : Prop :=
  NoDup (Tab.id <$> tabs st)
  ∧ tabs st ≠ []
  ∧ ∃ a, activeTabId st = Some a ∧ a ∈ Tab.id <$> tabs st.

End TabManager.

(** The string holds no line terminator. *)
Definition noLineTerminator (s : jstr) : Prop :=
  Forall (λ c, Text.isLineTerminator c = false) s.

(** One step of the loop of [importWords]. *)
Definition importLine (imported : gmap jstr jstr) (line : jstr) : gmap jstr jstr :=
  match Text.matchLine line with
  | Some (num, capture) => <[num := Str.trim capture]> imported
  | None => imported
  end.

(** Two strings that start with different literal texts are different. *)
Ltac differ :=
  let H := fresh in
  intros H; vm_compute in H; simplify_eq.

(** Hypotheses on comparisons of code units, as (in)equalities for [lia]. *)
Ltac units :=
  repeat match goal with
  | H : (_ && _) = true |- _ => apply andb_true_iff in H as [? ?]
  | H : (_ || _) = false |- _ => apply orb_false_iff in H as [? ?]
  | H : negb _ = true |- _ => apply negb_true_iff in H
  | H : negb _ = false |- _ => apply negb_false_iff in H
  | H : (_ <=? _) = true |- _ => apply N.leb_le in H
  | H : (_ <=? _) = false |- _ => apply N.leb_gt in H
  | H : (_ =? _) = true |- _ => apply N.eqb_eq in H
  | H : (_ =? _) = false |- _ => apply N.eqb_neq in H
  end.

(** * Concrete runs *)

Example encode_tooth :
  wordToPhonetics (js "tooth") = [js "t"; js "o"; js "o"; js "th"]
  ∧ wordDigits (js "tooth") = [VStr (js "1"); VStr (js "1")].
Proof. split; vm_compute; reflexivity. Qed.

Example valid_tooth :
  validateWord (js "11") (js "tooth") = true
  ∧ validateWord (js "10") (js "tooth") = false.
Proof. split; vm_compute; reflexivity. Qed.

Example valid_tan :
  validateWord (js "12") (js "tan") = true
  ∧ validateWord (js "21") (js "tan") = false.
Proof. split; vm_compute; reflexivity. Qed.

Example keyOf_samples :
  keyOf 0 = js "00" ∧ keyOf 7 = js "07" ∧ keyOf 42 = js "42" ∧ keyOf 99 = js "99".
Proof. repeat split; vm_compute; reflexivity. Qed.

Example homonymConflicts_there_their :
  homonymConflicts firstSound [(js "00", js "there"); (js "01", js "their"); (js "02", js "sun")]
  = [(js "00", [js "01"]); (js "01", [js "00"])].
Proof. by vm_compute. Qed.

(** * Properties *)

(** ** White space and trimming *)

Section Trim.

Lemma trimStart_nil_iff s : Str.trimStart s = [] ↔ blank s.
Proof.
  unfold blank. induction s as [|c s IH]; simpl.
  - split; [constructor | done].
  - destruct (Str.isWhiteSpace c) eqn:Hc.
    + rewrite IH. split; [by constructor | by inversion 1].
    + split; [done | inversion 1; congruence].
Qed.

Lemma trimStart_suffix s : ∃ pre, s = pre ++ Str.trimStart s ∧ blank pre.
Proof.
  induction s as [|c s (pre & IH & Hpre)]; simpl.
  - exists []. split; [done | constructor].
  - destruct (Str.isWhiteSpace c) eqn:Hc.
    + exists (c :: pre). split; [simpl; congruence | by constructor].
    + exists []. split; [done | constructor].
Qed.

Lemma blank_app s t : blank (s ++ t) ↔ blank s ∧ blank t.
Proof. apply Forall_app. Qed.

Lemma blank_reverse s : blank (reverse s) ↔ blank s.
Proof. unfold blank. by rewrite !Forall_forall; setoid_rewrite elem_of_reverse. Qed.

Lemma trim_nil_iff s : Str.trim s = [] ↔ blank s.
Proof.
  unfold Str.trim, Str.trimEnd.
  destruct (trimStart_suffix s) as (pre & Hs & Hpre).
  split.
  - intros H. apply (f_equal reverse) in H.
    rewrite reverse_involutive, reverse_nil in H.
    apply trimStart_nil_iff in H. apply (proj1 (blank_reverse _)) in H.
    rewrite Hs. apply blank_app. by split.
  - intros H. rewrite Hs in H. apply blank_app in H as [_ H].
    apply (proj2 (blank_reverse _)), trimStart_nil_iff in H. by rewrite H.
Qed.

Lemma falsy_trim_iff s : Str.falsy (Str.trim s) = true ↔ blank s.
Proof.
  rewrite <- trim_nil_iff. destruct (Str.trim s); simpl; split; congruence.
Qed.

Lemma falsy_trim_false s : Str.falsy (Str.trim s) = false ↔ ¬ blank s.
Proof.
  rewrite <- falsy_trim_iff. destruct (Str.falsy (Str.trim s)); split; congruence.
Qed.

End Trim.

(** ** The cursor walk is subsequence containment *)

Section Walk.

Implicit Types (l : list value) (x : value) (es : list jstr).

Lemma indexOf_go_Some l x i j :
  indexOf_go l x i = Some j →
  ∃ pre post, l = pre ++ x :: post ∧ (x ∉ pre) ∧ j = (i + length pre)%nat.
Proof.
  revert i. induction l as [|y l IH]; intros i; simpl; [done|].
  case_bool_decide as Hy.
  - intros [= <-]. subst y. exists [], l. split_and!; [done | apply not_elem_of_nil | simpl; lia].
  - intros (pre & post & -> & Hpre & ->)%IH.
    exists (y :: pre), post. split_and!; [done | | simpl; lia].
    rewrite not_elem_of_cons. split; [congruence | done].
Qed.

Lemma indexOf_go_None l x i : indexOf_go l x i = None ↔ x ∉ l.
Proof.
  revert i. induction l as [|y l IH]; intros i; simpl.
  - split; [intros _; apply not_elem_of_nil | done].
  - case_bool_decide as Hy.
    + subst y. split; [done | intros []; left].
    + rewrite IH, not_elem_of_cons. split; [split; [congruence|done] | tauto].
Qed.

Lemma sublist_elem_of {A} (k m : list A) a : k `sublist_of` m → a ∈ k → a ∈ m.
Proof.
  induction 1 as [|b k m _ IH|b k m _ IH]; rewrite ?elem_of_cons; [done | | by auto].
  intros [->|?]; [by left | right; auto].
Qed.

(** Taking the first occurrence loses nothing. *)
Lemma sublist_first_occurrence {A} (a : A) k pre post :
  a ∉ pre → (a :: k `sublist_of` pre ++ a :: post ↔ k `sublist_of` post).
Proof.
  intros Hpre. split.
  - induction pre as [|b pre IH]; simpl.
    + rewrite sublist_cons_r. intros [H | (k' & [= <-] & H)]; [|done].
      eapply sublist_cons_l in H as (k1 & k2 & -> & H).
      by apply sublist_inserts_l, sublist_cons.
    + apply not_elem_of_cons in Hpre as [Hab Hpre].
      rewrite sublist_cons_r. intros [H | (k' & [= -> <-] & H)]; [auto | done].
  - intros H. by apply sublist_inserts_l, sublist_skip.
Qed.

Lemma validateWord_loop_sublist es l i :
  validateWord_loop es l i = true ↔ (VStr <$> es) `sublist_of` drop i l.
Proof.
  revert i. induction es as [|e es IH]; intros i; simpl.
  - split; [intros _; apply sublist_nil_l | done].
  - unfold indexOf. destruct (indexOf_go (drop i l) (VStr e) i) as [j|] eqn:Hj.
    + apply indexOf_go_Some in Hj as (pre & post & Hl & Hpre & ->).
      rewrite IH, Hl, (sublist_first_occurrence _ _ _ _ Hpre).
      replace (drop (i + length pre + 1) l) with post; [done|].
      by rewrite <- Nat.add_assoc, <- drop_drop, Hl, drop_app_add.
    + apply indexOf_go_None in Hj. split; [done|].
      intros H. exfalso. apply Hj. eapply sublist_elem_of; [exact H | left].
Qed.

End Walk.

(** ** The cursor takes first occurrences *)

Section Cursor.

Implicit Types (l : list value) (x : value).

Lemma indexOf_go_first l x i0 j :
  indexOf_go l x i0 = Some j ↔
  ∃ n, j = (i0 + n)%nat ∧ l !! n = Some x ∧ ∀ k, (k < n)%nat → l !! k ≠ Some x.
Proof.
  revert i0. induction l as [|y l IH]; intros i0; simpl.
  - split; [done | by intros (n & _ & ? & _)].
  - case_bool_decide as Hy.
    + subst y. split.
      * intros [= <-]. exists 0%nat. split_and!; [lia | done | lia].
      * intros (n & -> & Hn & Hk). destruct n as [|n]; [f_equal; lia|].
        exfalso. by apply (Hk 0%nat); [lia|].
    + rewrite IH. split.
      * intros (n & -> & Hn & Hk). exists (S n). split_and!; [lia | done |].
        intros [|k] ?; simpl; [congruence | apply Hk; lia].
      * intros (n & -> & Hn & Hk). destruct n as [|n]; simpl in Hn; [congruence|].
        exists n. split_and!; [lia | done |].
        intros k ?. apply (Hk (S k)). lia.
Qed.

Lemma indexOf_first l x from i :
  indexOf l x from = Some i ↔ first_at l x from i.
Proof.
  unfold indexOf, first_at. rewrite indexOf_go_first. split.
  - intros (n & -> & Hn & Hk). rewrite lookup_drop in Hn.
    split_and!; [lia | done |].
    intros k ?. specialize (Hk (k - from)%nat).
    rewrite lookup_drop in Hk. replace (from + (k - from))%nat with k in Hk by lia.
    apply Hk. lia.
  - intros (Hle & Hi & Hk). exists (i - from)%nat.
    rewrite lookup_drop. replace (from + (i - from))%nat with i by lia.
    split_and!; [done.. |].
    intros k ?. rewrite lookup_drop. apply Hk. lia.
Qed.

Lemma indexOf_none l x from :
  indexOf l x from = None ↔ ∀ k, (from ≤ k)%nat → l !! k ≠ Some x.
Proof.
  unfold indexOf. rewrite indexOf_go_None, list_elem_of_lookup. split.
  - intros H k Hk Hx. apply H. exists (k - from)%nat.
    rewrite lookup_drop. by replace (from + (k - from))%nat with k by lia.
  - intros H (n & Hn). rewrite lookup_drop in Hn. by apply (H (from + n)%nat); [lia|].
Qed.

End Cursor.

(** ** The validator on words that are not blank *)

Lemma validateWord_nonblank num word :
  ¬ blank word →
  validateWord num word = true ↔ (VStr <$> Str.split num) `sublist_of` wordDigits word.
Proof.
  intros Hw%falsy_trim_false. unfold validateWord. rewrite Hw.
  destruct num as [|d num]; simpl length; cbn [Nat.eqb].
  - split; [intros _; apply sublist_nil_l | done].
  - by rewrite validateWord_loop_sublist, drop_0.
Qed.

(** C1: for a two-unit key [d1 d2] and a word whose trimmed form is not empty,
    [validateWord] answers true exactly when [d1], [d2] occur in this order,
    not necessarily next to each other, in the digit sequence of the word;
    equivalently, when the first occurrence of [d1] exists and an occurrence
    of [d2] exists after it, each search taking the first occurrence at or
    after the cursor. *)
Theorem validateWord_subsequence (d1 d2 : N) (word : jstr) :
  Str.trim word ≠ [] →
  (validateWord [d1; d2] word = true ↔
     [VStr [d1]; VStr [d2]] `sublist_of` wordDigits word)
  ∧ (validateWord [d1; d2] word = true ↔
     ∃ i j, first_at (wordDigits word) (VStr [d1]) 0 i
            ∧ first_at (wordDigits word) (VStr [d2]) (i + 1) j)
  ∧ (validateWord [d1; d2] word = false ↔
     indexOf (wordDigits word) (VStr [d1]) 0 = None
     ∨ ∃ i, indexOf (wordDigits word) (VStr [d1]) 0 = Some i
            ∧ indexOf (wordDigits word) (VStr [d2]) (i + 1) = None).
Proof.
  intros Hw. assert (Hb : ¬ blank word) by by rewrite <- trim_nil_iff.
  split; [exact (validateWord_nonblank [d1; d2] word Hb)|].
  apply falsy_trim_false in Hb. unfold validateWord. rewrite Hb. simpl.
  destruct (indexOf (wordDigits word) (VStr [d1]) 0) as [i|] eqn:H1.
  - destruct (indexOf (wordDigits word) (VStr [d2]) (i + 1)) as [j|] eqn:H2.
    + split.
      * split; [intros _ | done]. exists i, j. by rewrite <- !indexOf_first.
      * split; [done|]. intros [? | (i' & [= <-] & ?)]; congruence.
    + split.
      * split; [done|]. intros (i' & j & Hi%indexOf_first & Hj%indexOf_first).
        congruence.
      * split; [intros _; right; eauto | done].
  - split.
    + split; [done|]. intros (i & j & Hi%indexOf_first & _). congruence.
    + split; [intros _; by left | done].
Qed.

Lemma validateWord_subsequence_witness :
  Str.trim (js "tooth") ≠ []
  ∧ validateWord (js "11") (js "tooth") = true
  ∧ [VStr (js "1"); VStr (js "1")] `sublist_of` wordDigits (js "tooth").
Proof.
  assert (H : Str.trim (js "tooth") ≠ []) by (vm_compute; discriminate).
  split; [exact H|].
  split; [vm_compute; reflexivity|].
  apply (proj1 (proj1 (validateWord_subsequence 49 49 (js "tooth") H))).
  vm_compute; reflexivity.
Defined.

(** C7: the empty word encodes to the empty symbol sequence, and a word that
    is empty or made of white space only is valid for every key; in
    particular the empty word is valid for key 00. *)
Theorem blank_word_valid :
  wordToPhonetics [] = []
  ∧ (∀ num word, blank word → validateWord num word = true)
  ∧ validateWord (js "00") [] = true.
Proof.
  split_and!; [done | | done].
  intros num word Hw%falsy_trim_iff. unfold validateWord. by rewrite Hw.
Qed.

Lemma blank_word_valid_witness :
  blank (js "  ") ∧ validateWord (js "42") (js "  ") = true.
Proof.
  assert (H : blank (js "  ")) by (repeat constructor).
  split; [exact H|].
  exact (proj1 (proj2 blank_word_valid) (js "42") (js "  ") H).
Defined.

(** ** Normalisation *)

Section Normalize.

Lemma normalize_app w1 w2 : normalize (w1 ++ w2) = normalize w1 ++ normalize w2.
Proof.
  unfold normalize, Str.toLowerCase, Str.stripNonLetters.
  by rewrite bind_app, filter_app.
Qed.

Lemma normalize_cons c w :
  normalize (c :: w) = Str.stripNonLetters (Str.lowerUnit c) ++ normalize w.
Proof.
  unfold normalize, Str.toLowerCase, Str.stripNonLetters.
  by rewrite bind_cons, filter_app.
Qed.

Lemma normalize_letters w : Forall (λ c, Str.isLowerAZ c = true) (normalize w).
Proof.
  unfold normalize, Str.stripNonLetters. apply Forall_forall.
  by intros c [? _]%list_elem_of_filter.
Qed.

End Normalize.

Section NoLetters.

Lemma strip_lowerUnit_other c :
  isAsciiLetter c = false → c ≠ kelvinSign →
  Str.stripNonLetters (Str.lowerUnit c) = [] ∨
  Str.stripNonLetters (Str.lowerUnit c) = [unit_of "i"].
Proof.
  unfold isAsciiLetter, kelvinSign, Str.lowerUnit, Str.stripNonLetters.
  intros Hc Hk.
  repeat case_match; rewrite ?filter_cons, ?filter_nil;
    repeat case_decide; unfold Str.isLowerAZ in *; auto;
    exfalso; units;
    repeat match goal with
    | H : (_ && _) = false |- _ => apply andb_false_iff in H as [? | ?]
    | H : (_ || _) = true |- _ => apply orb_true_iff in H as [? | ?]
    | H : _ ≠ true |- _ => apply not_true_is_false in H
    end; units; try lia; try done.
Qed.

Lemma normalize_no_letters word :
  Forall (λ c, isAsciiLetter c = false ∧ c ≠ kelvinSign) word →
  Forall (λ c, c = unit_of "i") (normalize word).
Proof.
  induction 1 as [|c w [Hc Hk] _ IH]; [constructor|].
  rewrite normalize_cons. apply Forall_app. split; [|done].
  destruct (strip_lowerUnit_other c Hc Hk) as [-> | ->]; by repeat constructor.
Qed.

Lemma digitsOf_loop_vowels l :
  Forall (λ c, c = unit_of "i") l → digitsOf (wordToPhonetics_loop l) = [].
Proof.
  induction 1 as [|c l -> _ IH]; [done|].
  by destruct l.
Qed.

Lemma validateWord_no_digits num word :
  num ≠ [] → ¬ blank word → wordDigits word = [] → validateWord num word = false.
Proof.
  intros Hn Hw Hd. apply not_true_is_false.
  rewrite (validateWord_nonblank _ _ Hw), Hd, sublist_nil_r.
  by destruct num.
Qed.

End NoLetters.

(** C10, amended: a word with at least one character that is not white
    space, with no ASCII letter and no KELVIN SIGN (U+212A, which lower-casing
    turns into the letter k) is invalid for every two-digit key: its digit
    sequence is empty, so the first target digit is not found. *)
Theorem validateWord_no_letters (num word : jstr) :
  length num = 2%nat →
  ¬ blank word →
  Forall (λ c, isAsciiLetter c = false ∧ c ≠ kelvinSign) word →
  wordDigits word = [] ∧ validateWord num word = false.
Proof.
  intros Hn Hw Hl.
  assert (Hd : wordDigits word = []).
  { by apply digitsOf_loop_vowels, normalize_no_letters. }
  split; [done|]. apply validateWord_no_digits; [|done..].
  by destruct num.
Qed.

Lemma validateWord_no_letters_witness :
  wordDigits (js "123") = [] ∧ validateWord (js "12") (js "123") = false.
Proof.
  apply validateWord_no_letters.
  - reflexivity.
  - intros H. by inversion H.
  - repeat constructor; by vm_compute.
Defined.

(** C10 as stated fails: two KELVIN SIGNs hold no ASCII letter and are not
    white space, yet they normalise to [kk], whose digits are 7, 7. *)
Lemma validateWord_no_letters_counterexample :
  ¬ blank [kelvinSign; kelvinSign]
  ∧ Forall (λ c, isAsciiLetter c = false) [kelvinSign; kelvinSign]
  ∧ normalize [kelvinSign; kelvinSign] = js "kk"
  ∧ validateWord (js "77") [kelvinSign; kelvinSign] = true.
Proof.
  split_and!; [by inversion 1 | by repeat constructor | done | done].
Qed.

(** ** Enumerating the keys *)

Section Keys.

Lemma allKeys_twoDigit : Forall (λ k, twoDigitKey k = true) allKeys.
Proof. apply (bool_decide_eq_true_1 _). by vm_compute. Qed.

Lemma isDigit_cases c :
  isDigit c = true →
  c = 48 ∨ c = 49 ∨ c = 50 ∨ c = 51 ∨ c = 52 ∨ c = 53 ∨ c = 54
  ∨ c = 55 ∨ c = 56 ∨ c = 57.
Proof. unfold isDigit. intros H. units. lia. Qed.

Lemma twoDigit_allKeys k : twoDigitKey k = true → k ∈ allKeys.
Proof.
  destruct k as [|d1 [|d2 [|? ?]]]; try done. simpl.
  intros [H1%isDigit_cases H2%isDigit_cases]%andb_true_iff.
  destruct_or!; subst d1 d2; apply (bool_decide_eq_true_1 _); by vm_compute.
Qed.

Lemma elem_of_allKeys k : k ∈ allKeys ↔ twoDigitKey k = true.
Proof.
  split; [|apply twoDigit_allKeys].
  intros H. by apply (proj1 (Forall_forall _ _) allKeys_twoDigit).
Qed.

End Keys.




(** C5, amended: "tea" encodes to the symbols t, e, a and to the single
    digit 1; no two-digit pattern is a subsequence of a one-digit sequence,
    so [getValidPositionsForWord] returns no key for it. *)
Theorem validPositions_tea :
  wordToPhonetics (js "tea") = [js "t"; js "e"; js "a"]
  ∧ wordDigits (js "tea") = [VStr (js "1")]
  ∧ (∀ d1 d2, ¬ [VStr [d1]; VStr [d2]] `sublist_of` wordDigits (js "tea"))
  ∧ getValidPositionsForWord (js "tea") = [].
Proof.
  split_and!; [by vm_compute | by vm_compute | | by vm_compute].
  intros d1 d2 H%sublist_length. vm_compute in H. lia.
Qed.

(** C5 as stated fails: key 01 is not among the valid positions of "tea". *)
Lemma validPositions_tea_counterexample :
  validateWord (js "01") (js "tea") = false
  ∧ js "01" ∉ getValidPositionsForWord (js "tea").
Proof.
  split; [by vm_compute|].
  replace (getValidPositionsForWord (js "tea")) with (@nil jstr) by by vm_compute.
  apply not_elem_of_nil.
Qed.

(** C8: two words that agree after lower-casing and removal of every
    character outside a-z have the same symbol sequence and the same digit
    sequence. *)
Theorem encoding_letters_only (w1 w2 : jstr) :
  Str.stripNonLetters (Str.toLowerCase w1) = Str.stripNonLetters (Str.toLowerCase w2) →
  wordToPhonetics w1 = wordToPhonetics w2 ∧ wordDigits w1 = wordDigits w2.
Proof.
  intros H. unfold wordDigits, wordToPhonetics, normalize. by rewrite H.
Qed.

Lemma encoding_letters_only_witness :
  wordToPhonetics (js "Too-Th!") = wordToPhonetics (js "tooth")
  ∧ wordDigits (js "Too-Th!") = wordDigits (js "tooth").
Proof.
  apply encoding_letters_only. by vm_compute.
Defined.

(** ** The digit table *)

Section Table.

Lemma tail_induction {A} (P : list A → Prop) :
  P [] → (∀ a l, P l → P (tail l) → P (a :: l)) → ∀ l, P l.
Proof.
  intros Hnil Hstep l. cut (P l ∧ P (tail l)); [tauto|].
  induction l as [|a l [IH1 IH2]]; simpl; auto.
Qed.

(** The loop body with the resumption after a digraph written with
    [tail]. *)
Lemma wordToPhonetics_loop_cons char rest :
  wordToPhonetics_loop (char :: rest) =
  let nextChar := head rest in
  let after_two := wordToPhonetics_loop (tail rest) in
  if is_unit "c" char && next_is "h" nextChar then js "ch" :: after_two
  else if is_unit "s" char && next_is "h" nextChar then js "sh" :: after_two
  else if is_unit "t" char && next_is "h" nextChar then js "th" :: after_two
  else if is_unit "p" char && next_is "h" nextChar then js "ph" :: after_two
  else if is_unit "q" char && next_is "u" nextChar then js "qu" :: after_two
  else if is_unit "c" char then
    (if next_is "e" nextChar || next_is "i" nextChar || next_is "y" nextChar
     then js "s" else js "k") :: wordToPhonetics_loop rest
  else if is_unit "g" char then
    (if next_is "e" nextChar || next_is "i" nextChar || next_is "y" nextChar
     then js "j" else js "g") :: wordToPhonetics_loop rest
  else [char] :: wordToPhonetics_loop rest.
Proof. by destruct rest. Qed.

(** Every emitted symbol is one code unit or a digraph. *)
Lemma wordToPhonetics_loop_symbols l :
  Forall (λ p, (length p ≤ 2)%nat) (wordToPhonetics_loop l).
Proof.
  induction l as [|char rest IH1 IH2] using tail_induction; [constructor|].
  rewrite wordToPhonetics_loop_cons. cbv zeta.
  repeat case_match; constructor; simpl; auto.
Qed.

Lemma inherited_length p : inherited p = true → (7 ≤ length p)%nat.
Proof.
  intros H%bool_decide_eq_true_1. revert p H. apply Forall_forall.
  apply (bool_decide_eq_true_1 _). by vm_compute.
Qed.

Lemma symbols_not_inherited word p :
  p ∈ wordToPhonetics word → inherited p = false.
Proof.
  intros Hp. apply not_true_is_false. intros Hi%inherited_length.
  pose proof (wordToPhonetics_loop_symbols (normalize word)) as Hs.
  rewrite Forall_forall in Hs. specialize (Hs p Hp). lia.
Qed.

Lemma digitMap_values : map_Forall (λ _ v, Str.falsy v = false) digitMap.
Proof. apply (bool_decide_eq_true_1 _). by vm_compute. Qed.

Lemma phoneticToDigit_own p :
  inherited p = false → phoneticToDigit p = VStr <$> digitMap !! p.
Proof.
  intros Hp. unfold phoneticToDigit, getProperty. rewrite Hp.
  destruct (digitMap !! p) as [v|] eqn:Hv; [|done].
  apply digitMap_values in Hv. simpl in *. by rewrite Hv.
Qed.

Lemma digitMap_toDigit p : digitMap !! p = toDigit p.
Proof.
  destruct (decide (p ∈ digitMap_entries.*1)) as [Hin|Hout].
  - apply list_elem_of_In in Hin. vm_compute in Hin.
    destruct_or!; try done; subst p; by vm_compute.
  - unfold digitMap. rewrite (not_elem_of_list_to_map_1 _ _ Hout).
    unfold toDigit.
    destruct (List.find _ majorSystem) as [e|] eqn:He; [|done].
    exfalso. apply List.find_some in He as [He Hp].
    apply bool_decide_eq_true_1, list_elem_of_In in Hp.
    simpl in He. destruct_or!; try done; subst e;
      vm_compute in Hp; destruct_or!; try done; subst p;
      apply Hout, (bool_decide_eq_true_1 _); by vm_compute.
Qed.

Lemma digitsOf_app ps1 ps2 : digitsOf (ps1 ++ ps2) = digitsOf ps1 ++ digitsOf ps2.
Proof. apply omap_app. Qed.

Lemma digitsOf_cons p ps :
  digitsOf (p :: ps) =
  match phoneticToDigit p with
  | Some d => d :: digitsOf ps
  | None => digitsOf ps
  end.
Proof. reflexivity. Qed.

End Table.

(** C6: [phoneticToDigit] maps s, z to 0; t, d, th to 1; n to 2; m to 3; r to
    4; l to 5; j, sh, ch to 6; k, g, q, qu to 7; f, v, ph to 8; p, b to 9, and
    every other symbol to none (null); it is a total function.  This holds for
    every string that does not name a member of [Object.prototype], hence for
    every symbol the encoder emits; a symbol mapped to none leaves no trace in
    the digit sequence. *)
Theorem phoneticToDigit_table :
  (∀ p, inherited p = false → phoneticToDigit p = VStr <$> toDigit p)
  ∧ (∀ word p, p ∈ wordToPhonetics word → phoneticToDigit p = VStr <$> toDigit p)
  ∧ Forall (λ p, phoneticToDigit (js p) = None)
      ["a"; "e"; "i"; "o"; "u"; "h"; "w"; "y"; "!"; "1"; " "; ""]%string
  ∧ (∀ ps1 p ps2, phoneticToDigit p = None →
       digitsOf (ps1 ++ p :: ps2) = digitsOf (ps1 ++ ps2)).
Proof.
  split_and!.
  - intros p Hp. by rewrite phoneticToDigit_own, digitMap_toDigit.
  - intros word p Hp%symbols_not_inherited.
    by rewrite phoneticToDigit_own, digitMap_toDigit.
  - repeat constructor.
  - intros ps1 p ps2 Hp. rewrite !digitsOf_app. f_equal.
    by rewrite digitsOf_cons, Hp.
Qed.

Lemma phoneticToDigit_table_witness :
  inherited (js "th") = false
  ∧ phoneticToDigit (js "th") = Some (VStr (js "1"))
  ∧ phoneticToDigit (js "w") = None.
Proof.
  split; [reflexivity|].
  split.
  - rewrite (proj1 phoneticToDigit_table (js "th")); reflexivity.
  - rewrite (proj1 phoneticToDigit_table (js "w")); reflexivity.
Defined.

(** ** Inserting letters into a word *)

Section Insertion.

Lemma loopDigits_h rest : loopDigits (unit_of "h" :: rest) = loopDigits rest.
Proof. unfold loopDigits. by rewrite wordToPhonetics_loop_cons. Qed.

Lemma loopDigits_u rest : loopDigits (unit_of "u" :: rest) = loopDigits rest.
Proof. unfold loopDigits. by rewrite wordToPhonetics_loop_cons. Qed.

Lemma next_is_head a l :
  next_is a (head l) = true → ∃ l', l = unit_of a :: l'.
Proof.
  destruct l as [|c l']; simpl; [done|].
  unfold is_unit. intros ->%N.eqb_eq. by exists l'.
Qed.

(** A letter put in front adds at most its own digit. *)
Lemma loopDigits_prepend c l : loopDigits l `sublist_of` loopDigits (c :: l).
Proof.
  unfold loopDigits at 2. rewrite wordToPhonetics_loop_cons. cbv zeta.
  destruct (next_is "h" (head l)) eqn:Hh; [|destruct (next_is "u" (head l)) eqn:Hu].
  - apply next_is_head in Hh as [l' ->]. cbn [head tail next_is].
    repeat case_match; rewrite digitsOf_cons;
      fold (loopDigits l'); fold (loopDigits (unit_of "h" :: l'));
      rewrite ?loopDigits_h; case_match; try done; by apply sublist_cons.
  - apply next_is_head in Hu as [l' ->]. cbn [head tail next_is].
    repeat case_match; rewrite digitsOf_cons;
      fold (loopDigits l'); fold (loopDigits (unit_of "u" :: l'));
      rewrite ?loopDigits_u; case_match; try done; by apply sublist_cons.
  - rewrite !andb_false_r.
    repeat case_match; rewrite digitsOf_cons;
      fold (loopDigits l); case_match; try done; by apply sublist_cons.
Qed.

Lemma loopDigits_insert x l : loopDigits l `sublist_of` loopDigits (x ++ l).
Proof.
  induction x as [|c x IH]; [done|].
  etrans; [exact IH | apply loopDigits_prepend].
Qed.

Lemma safe_end_cons c r l : safe_end (c :: r :: l) = safe_end (r :: l).
Proof. unfold safe_end. by rewrite last_cons_cons. Qed.

Lemma safe_end_tail c r l : safe_end (c :: r :: l) = true → safe_end l = true.
Proof.
  rewrite safe_end_cons. destruct l as [|r' l]; [done|]. by rewrite safe_end_cons.
Qed.

(** After a letter that is not a context letter, the digits of what follows
    do not depend on it. *)
Lemma loopDigits_single c l :
  contextLetter c = false → loopDigits (c :: l) = loopDigits [c] ++ loopDigits l.
Proof.
  unfold contextLetter. intros Hc.
  apply orb_false_iff in Hc as [Hc Hp].
  apply orb_false_iff in Hc as [Hc Hs].
  apply orb_false_iff in Hc as [Hc Hg].
  unfold loopDigits. rewrite !wordToPhonetics_loop_cons. cbv zeta.
  rewrite Hc, Hg, Hs, Hp. cbn [andb head next_is].
  rewrite !andb_false_r.
  destruct (is_unit "t" c) eqn:Ht; cbn [andb].
  { apply N.eqb_eq in Ht. subst c.
    destruct (next_is "h" (head l)) eqn:Hh.
    - apply next_is_head in Hh as [l' ->]. cbn [tail].
      fold (loopDigits (unit_of "h" :: l')). by rewrite loopDigits_h.
    - replace (is_unit "q" (unit_of "t")) with false by done. cbn [andb].
      by rewrite !digitsOf_cons. }
  destruct (is_unit "q" c) eqn:Hq; cbn [andb].
  { apply N.eqb_eq in Hq. subst c.
    destruct (next_is "u" (head l)) eqn:Hu.
    - apply next_is_head in Hu as [l' ->]. cbn [tail].
      fold (loopDigits (unit_of "u" :: l')). by rewrite loopDigits_u.
    - by rewrite !digitsOf_cons. }
  rewrite !digitsOf_cons. by case_match.
Qed.

Lemma loopDigits_app l1 l2 :
  safe_end l1 = true → loopDigits (l1 ++ l2) = loopDigits l1 ++ loopDigits l2.
Proof.
  induction l1 as [|c rest IH1 IH2] using tail_induction; [done|].
  destruct rest as [|r rest'].
  - unfold safe_end. simpl. intros Hc%negb_true_iff.
    by apply loopDigits_single.
  - intros Hsafe. pose proof (safe_end_tail _ _ _ Hsafe) as Htail.
    rewrite safe_end_cons in Hsafe.
    specialize (IH1 Hsafe). specialize (IH2 Htail).
    unfold loopDigits in *.
    change ((c :: r :: rest') ++ l2) with (c :: (r :: rest') ++ l2).
    rewrite !(wordToPhonetics_loop_cons c). cbv zeta.
    change (head ((r :: rest') ++ l2)) with (head (r :: rest')).
    change (tail ((r :: rest') ++ l2)) with (tail (r :: rest') ++ l2).
    repeat case_match; rewrite !digitsOf_cons, ?IH1, ?IH2; by case_match.
Qed.

Lemma wordDigits_insert l1 x l2 :
  safe_end (normalize l1) = true →
  wordDigits (l1 ++ l2) `sublist_of` wordDigits (l1 ++ x ++ l2).
Proof.
  intros Hsafe. unfold wordDigits, wordToPhonetics.
  rewrite !normalize_app. fold (loopDigits (normalize l1 ++ normalize l2)).
  fold (loopDigits (normalize l1 ++ normalize x ++ normalize l2)).
  rewrite !loopDigits_app by done.
  apply sublist_app; [done | apply loopDigits_insert].
Qed.

End Insertion.

(** C2, amended: let [w = l1 ++ l2] have a non-empty trimmed form and be
    valid for the key.  Inserting any characters [x] between [l1] and [l2]
    keeps the word valid, provided the last letter before the insertion point
    (after normalisation of [l1]) is none of c, g, s, p; an insertion at the
    front of the word is always of this kind. *)
Theorem insertion_preserves_validity (num l1 x l2 : jstr) :
  ¬ blank (l1 ++ l2) →
  safe_end (normalize l1) = true →
  validateWord num (l1 ++ l2) = true →
  validateWord num (l1 ++ x ++ l2) = true.
Proof.
  intros Hw Hsafe Hv.
  assert (Hw' : ¬ blank (l1 ++ x ++ l2)).
  { intros H. apply Hw. rewrite !blank_app in *. tauto. }
  rewrite (validateWord_nonblank _ _ Hw) in Hv.
  rewrite (validateWord_nonblank _ _ Hw').
  etrans; [exact Hv | by apply wordDigits_insert].
Qed.

Lemma insertion_preserves_validity_witness :
  validateWord (js "12") (js "tan") = true
  ∧ validateWord (js "12") (js "ta" ++ js "sk" ++ js "n") = true.
Proof.
  assert (Hv : validateWord (js "12") (js "ta" ++ js "n") = true) by by vm_compute.
  split; [exact Hv|].
  apply insertion_preserves_validity; [| by vm_compute | exact Hv].
  intros H. by inversion H.
Defined.

(** C2 as stated fails.  "shoes" is valid for 60; with the consonant t
    inserted after its first letter it reads s, th, o, e, s and is not.  The
    empty word is valid for every key; the one-letter word "b" is not valid
    for 00. *)
Lemma insertion_counterexample :
  validateWord (js "60") (js "s" ++ js "hoes") = true
  ∧ validateWord (js "60") (js "s" ++ js "t" ++ js "hoes") = false
  ∧ wordDigits (js "shoes") = [VStr (js "6"); VStr (js "0")]
  ∧ wordDigits (js "sthoes") = [VStr (js "0"); VStr (js "1"); VStr (js "0")]
  ∧ validateWord (js "00") ([] ++ []) = true
  ∧ validateWord (js "00") ([] ++ js "b" ++ []) = false.
Proof. split_and!; by vm_compute. Qed.

(** Each of the four context letters changes its digit when a consonant is
    put directly after it: ch (6) becomes k (7), soft g (6) becomes hard g
    (7), sh (6) becomes s (0), ph (8) becomes p (9). *)
Example context_letters_matter :
  (validateWord (js "61") (js "c" ++ js "hat") = true
   ∧ validateWord (js "61") (js "c" ++ js "k" ++ js "hat") = false)
  ∧ (validateWord (js "63") (js "g" ++ js "em") = true
     ∧ validateWord (js "63") (js "g" ++ js "r" ++ js "em") = false)
  ∧ (validateWord (js "60") (js "s" ++ js "hoes") = true
     ∧ validateWord (js "60") (js "s" ++ js "t" ++ js "hoes") = false)
  ∧ (validateWord (js "82") (js "p" ++ js "hone") = true
     ∧ validateWord (js "82") (js "p" ++ js "t" ++ js "hone") = false).
Proof. split_and!; by vm_compute. Qed.

(** ** Lemmas on insertion-ordered maps and sets *)

Section JsMapFacts.

Context {V : Type}.
Implicit Types (m : list (jstr * V)) (k : jstr) (v : V).

Lemma get_set m k v k' :
  JsMap.get (JsMap.set m k v) k' = if decide (k = k') then Some v else JsMap.get m k'.
Proof.
  induction m as [|[k0 v0] m IH]; simpl.
  - by repeat case_decide.
  - repeat (case_decide; simpl; subst); try done; congruence.
Qed.

Lemma set_keys m k v :
  (JsMap.set m k v).*1 = if JsMap.has m k then m.*1 else m.*1 ++ [k].
Proof.
  unfold JsMap.has. induction m as [|[k0 v0] m IH]; csimpl; [done|].
  case_decide; csimpl; [done|]. rewrite IH. by destruct (JsMap.get m k).
Qed.

Lemma has_elem_of m k : JsMap.has m k = true ↔ k ∈ m.*1.
Proof.
  unfold JsMap.has. induction m as [|[k0 v0] m IH]; csimpl.
  - split; [done | by intros ?%elem_of_nil].
  - rewrite elem_of_cons. case_decide; subst; [by split; auto|].
    rewrite IH. split; [by right | by intros [->|?]].
Qed.

Lemma set_keys_NoDup m k v : NoDup m.*1 → NoDup (JsMap.set m k v).*1.
Proof.
  intros Hm. rewrite set_keys. destruct (JsMap.has m k) eqn:Hk; [done|].
  apply NoDup_app. split_and!; [done | | apply NoDup_singleton].
  intros x Hx ->%list_elem_of_singleton.
  apply has_elem_of in Hx. congruence.
Qed.

Lemma elem_of_get m k v : NoDup m.*1 → (k, v) ∈ m ↔ JsMap.get m k = Some v.
Proof.
  induction m as [|[k0 v0] m IH]; csimpl.
  - split; [by intros ?%elem_of_nil | done].
  - intros [Hk0 Hm]%NoDup_cons. rewrite elem_of_cons, (IH Hm).
    case_decide as Hk; subst.
    + split; [|intros [= ->]; by left].
      intros [[= ->] | Hin]; [done|].
      exfalso. apply Hk0.
      apply has_elem_of. unfold JsMap.has. by rewrite Hin.
    + split; [intros [[= -> ->] | ?]; done | by right].
Qed.

End JsMapFacts.

Section PushFacts.

Context {A B : Type} (f : A → option (jstr * B)).

Lemma get_push (m : list (jstr * list B)) k v k' :
  default [] (JsMap.get (JsMap.push m k v) k') =
  if decide (k = k') then default [] (JsMap.get m k) ++ [v]
  else default [] (JsMap.get m k').
Proof.
  unfold JsMap.push, JsMap.has.
  destruct (JsMap.get m k) as [arr|] eqn:Hk; simpl.
  - rewrite Hk, get_set. by case_decide.
  - rewrite get_set, decide_True by done.
    rewrite !get_set. repeat case_decide; try done; congruence.
Qed.

Lemma push_keys_NoDup (m : list (jstr * list B)) k v :
  NoDup m.*1 → NoDup (JsMap.push m k v).*1.
Proof.
  intros Hm. unfold JsMap.push.
  destruct (negb (JsMap.has m k)); case_match; auto using set_keys_NoDup.
Qed.

Lemma get_foldl_pushOpt l m0 k :
  default [] (JsMap.get (foldl (λ m x, pushOpt m (f x)) m0 l) k) =
  default [] (JsMap.get m0 k) ++ pushed f l k.
Proof.
  unfold pushed. revert m0. induction l as [|x l IH]; intros m0; simpl.
  - by rewrite app_nil_r.
  - rewrite IH. destruct (f x) as [[k0 v0]|]; simpl; [|done].
    rewrite get_push, filter_cons. simpl.
    repeat case_decide; subst; try done. by rewrite <- app_assoc.
Qed.

Lemma foldl_pushOpt_NoDup l m0 :
  NoDup m0.*1 → NoDup (foldl (λ m x, pushOpt m (f x)) m0 l).*1.
Proof.
  revert m0. induction l as [|x l IH]; intros m0 Hm; simpl; [done|].
  apply IH. destruct (f x) as [[k0 v0]|]; simpl; auto using push_keys_NoDup.
Qed.

Lemma elem_of_pushed l k v :
  v ∈ pushed f l k ↔ ∃ x, x ∈ l ∧ f x = Some (k, v).
Proof.
  unfold pushed. rewrite list_elem_of_fmap. split.
  - intros ([k' v'] & -> & [Hk Hin]%list_elem_of_filter). simpl in *. subst k'.
    by apply list_elem_of_omap in Hin.
  - intros (x & Hx & Hf). exists (k, v). split; [done|].
    apply list_elem_of_filter. split; [done|].
    apply list_elem_of_omap. eauto.
Qed.

End PushFacts.

Section JsSetFacts.

Lemma elem_of_add s x y : y ∈ JsSet.add s x ↔ y ∈ s ∨ y = x.
Proof.
  unfold JsSet.add. case_bool_decide.
  - split; [by left | by intros [?| ->]].
  - by rewrite elem_of_app, list_elem_of_singleton.
Qed.

Lemma elem_of_foldl_add l s y : y ∈ foldl JsSet.add s l ↔ y ∈ s ∨ y ∈ l.
Proof.
  revert s. induction l as [|x l IH]; intros s; simpl.
  - rewrite elem_of_nil. tauto.
  - rewrite IH, elem_of_add, elem_of_cons. tauto.
Qed.

Lemma elem_of_of_list l y : y ∈ JsSet.of_list l ↔ y ∈ l.
Proof.
  unfold JsSet.of_list. rewrite elem_of_foldl_add, elem_of_nil. tauto.
Qed.

End JsSetFacts.

(** ** The groups *)

Section Groups.

Variable doubleMetaphone : jstr → jstr * jstr.

Lemma foldl_collect cs m ws :
  foldl (groupHomonyms_collect doubleMetaphone cs) m ws =
  foldl (λ m x, pushOpt m (collected doubleMetaphone cs x)) m ws.
Proof.
  revert m. induction ws as [|w ws IH]; intros m; simpl; [done|].
  rewrite IH. f_equal. unfold groupHomonyms_collect, collected.
  by case_match.
Qed.

Lemma foldl_filter acc m :
  foldl groupHomonyms_filter acc m = acc ++ omap groupOf m.
Proof.
  revert acc. induction m as [|[code gw] m IH]; intros acc; simpl.
  - by rewrite app_nil_r.
  - rewrite IH. unfold groupOf. simpl.
    case_match; [by rewrite <- app_assoc | done].
Qed.

Lemma groupHomonyms_eq ws cs :
  groupHomonyms doubleMetaphone ws cs =
  omap groupOf (foldl (λ m x, pushOpt m (collected doubleMetaphone cs x)) [] ws).
Proof. unfold groupHomonyms. by rewrite foldl_filter, foldl_collect. Qed.

Lemma groupOf_code_sublist (m : list (jstr * list jstr)) :
  phoneticCode <$> omap groupOf m `sublist_of` m.*1.
Proof.
  induction m as [|[code gw] m IH]; csimpl; [done|].
  unfold groupOf at 1. simpl.
  destruct (1 <? length gw)%nat; csimpl; by constructor.
Qed.

(** Distinct groups carry distinct codes. *)
Lemma groupHomonyms_codes_NoDup ws cs :
  NoDup (phoneticCode <$> groupHomonyms doubleMetaphone ws cs).
Proof.
  rewrite groupHomonyms_eq.
  eapply sublist_NoDup; [|apply groupOf_code_sublist].
  by apply foldl_pushOpt_NoDup, NoDup_nil.
Qed.

(** The words of the group with code [code] are the trimmed forms of the
    input words with that code, and they occur at least twice in all. *)
Lemma elem_of_groupHomonyms ws cs g :
  g ∈ groupHomonyms doubleMetaphone ws cs ↔
  (1 < length (pushed (collected doubleMetaphone cs) ws (phoneticCode g)))%nat
  ∧ words g = JsSet.of_list (pushed (collected doubleMetaphone cs) ws (phoneticCode g)).
Proof.
  rewrite groupHomonyms_eq, list_elem_of_omap.
  set (m := foldl _ [] ws).
  assert (Hnd : NoDup m.*1) by by apply foldl_pushOpt_NoDup, NoDup_nil.
  assert (Hget : ∀ k, default [] (JsMap.get m k) = pushed (collected doubleMetaphone cs) ws k).
  { intros k. unfold m. by rewrite get_foldl_pushOpt. }
  split.
  - intros ([code gw] & Hin & Hg). apply (elem_of_get _ _ _ Hnd) in Hin.
    unfold groupOf in Hg. simpl in Hg. case_match eqn:Hlen; [|done].
    injection Hg as <-. simpl. rewrite <- Hget, Hin. simpl.
    by apply Nat.ltb_lt in Hlen.
  - intros [Hlen Hw]. destruct g as [code gw']. simpl in *.
    rewrite <- Hget in Hlen, Hw.
    destruct (JsMap.get m code) as [gw|] eqn:Hgw; simpl in *; [|lia].
    exists (code, gw). split; [by apply elem_of_get|].
    unfold groupOf. simpl. apply Nat.ltb_lt in Hlen. by rewrite Hlen, Hw.
Qed.

Lemma groupHomonyms_word_code ws cs g w :
  g ∈ groupHomonyms doubleMetaphone ws cs → w ∈ words g →
  (doubleMetaphone w).1 = phoneticCode g.
Proof.
  intros [_ Hw]%elem_of_groupHomonyms. rewrite Hw, elem_of_of_list, elem_of_pushed.
  intros (x & _ & Hx). unfold collected in Hx. case_match; [done|].
  by injection Hx as <- <-.
Qed.

End Groups.

(** ** The conflict map *)

Section ConflictMap.

Implicit Types (W C : list (jstr * list jstr)) (g : HomonymGroup).

Lemma elem_of_numbersOfGroup W g num :
  num ∈ numbersOfGroup W g ↔
  ∃ w, w ∈ words g ∧ num ∈ default [] (JsMap.get W w).
Proof.
  unfold numbersOfGroup.
  assert (H : ∀ ws s, num ∈ foldl (λ s w, foldl JsSet.add s
                        (default [] (JsMap.get W w))) s ws ↔
                      num ∈ s ∨ ∃ w, w ∈ ws ∧ num ∈ default [] (JsMap.get W w)).
  { induction ws as [|w ws IH]; intros s; simpl.
    - split; [by left | intros [?|(w & ?%elem_of_nil & _)]; done].
    - rewrite IH, elem_of_foldl_add. split.
      + intros [[?|?]|(w' & ? & ?)]; [by left | right | right].
        * exists w. split; [left | done].
        * exists w'. split; [by right | done].
      + intros [?|(w' & [->|?]%elem_of_cons & ?)]; [by left; left | by left; right |].
        right. by exists w'. }
  rewrite H, elem_of_nil. tauto.
Qed.

Lemma get_foldl_set (nl nums : list jstr) C a :
  JsMap.get (foldl (λ C num, JsMap.set C num (filter (λ n, n ≠ num) nl)) C nums) a =
  if decide (a ∈ nums) then Some (filter (λ n, n ≠ a) nl) else JsMap.get C a.
Proof.
  revert C. induction nums as [|n nums IH]; intros C; cbn [foldl].
  - by destruct (decide (a ∈ [])) as [?%elem_of_nil|].
  - rewrite IH, get_set.
    destruct (decide (a ∈ nums)) as [Hin|Hout],
             (decide (a ∈ n :: nums)) as [Hin'|Hout'],
             (decide (n = a)) as [->|Hn]; try done; exfalso;
      first [ by apply Hout'; right
            | by apply Hout'; left
            | by apply elem_of_cons in Hin' as [->|?] ].
Qed.

Lemma get_conflicts_of_group W C g a :
  JsMap.get (conflicts_of_group W C g) a =
  if decide ((1 < length (numbersOfGroup W g))%nat ∧ a ∈ numbersOfGroup W g)
  then Some (filter (λ n, n ≠ a) (numbersOfGroup W g))
  else JsMap.get C a.
Proof.
  unfold conflicts_of_group. cbv zeta.
  destruct (1 <? length (numbersOfGroup W g))%nat eqn:Hlen.
  - apply Nat.ltb_lt in Hlen. rewrite get_foldl_set.
    repeat case_decide; try done; tauto.
  - apply Nat.ltb_ge in Hlen. rewrite decide_False; [done|]. lia.
Qed.

(** Every entry of the conflict map comes from a group. *)
Lemma conflicts_sound W gs C a l :
  JsMap.get (foldl (conflicts_of_group W) C gs) a = Some l →
  JsMap.get C a = Some l
  ∨ ∃ g, g ∈ gs ∧ (1 < length (numbersOfGroup W g))%nat
         ∧ a ∈ numbersOfGroup W g
         ∧ l = filter (λ n, n ≠ a) (numbersOfGroup W g).
Proof.
  revert C. induction gs as [|g gs IH]; intros C; simpl; [by left|].
  intros [Hc | (g' & Hg' & Hlen & Ha & Hl)]%IH.
  - rewrite get_conflicts_of_group in Hc. case_decide as Hd; [|by left].
    right. exists g. destruct Hd. split_and!; [left | done | done | congruence].
  - right. exists g'. split_and!; [by right | done..].
Qed.

(** Every number of a group with two numbers or more has an entry. *)
Lemma conflicts_complete W gs C a :
  (is_Some (JsMap.get C a)
   ∨ ∃ g, g ∈ gs ∧ (1 < length (numbersOfGroup W g))%nat ∧ a ∈ numbersOfGroup W g) →
  is_Some (JsMap.get (foldl (conflicts_of_group W) C gs) a).
Proof.
  revert C. induction gs as [|g gs IH]; intros C; simpl.
  - intros [?|(g & ?%elem_of_nil & _)]; done.
  - intros H. apply IH. rewrite get_conflicts_of_group.
    destruct H as [H|(g' & [->|Hg']%elem_of_cons & Hlen & Ha)].
    + left. by case_decide.
    + left. by rewrite decide_True.
    + right. by exists g'.
Qed.

Lemma filledWords_keys_NoDup entries :
  NoDup entries.*1 → NoDup (filledWords entries).*1.
Proof.
  intros Hnd. unfold filledWords. rewrite <- list_fmap_compose.
  eapply sublist_NoDup; [exact Hnd|].
  apply (fmap_sublist fst), sublist_filter.
Qed.

Lemma filledWords_functional entries num w w' :
  NoDup entries.*1 →
  (num, w) ∈ filledWords entries → (num, w') ∈ filledWords entries → w = w'.
Proof.
  intros Hnd%filledWords_keys_NoDup. revert Hnd.
  induction (filledWords entries) as [|[n0 w0] fw IH]; csimpl.
  { by intros _ ?%elem_of_nil. }
  intros [Hn0 Hnd]%NoDup_cons [[= -> ->]|H1]%elem_of_cons [[= ->]|H2]%elem_of_cons;
    [done | | | by apply IH].
  - exfalso. apply Hn0, list_elem_of_fmap. by exists (n0, w').
  - exfalso. apply Hn0, list_elem_of_fmap. by exists (n0, w).
Qed.

Lemma wordToNumbers_spec (fw : list (jstr * jstr)) w num :
  num ∈ default [] (JsMap.get (foldl (λ m e, JsMap.push m e.2 e.1) [] fw) w)
  ↔ (num, w) ∈ fw.
Proof.
  change (foldl _ [] fw) with
    (foldl (λ m e, pushOpt m ((λ e : jstr * jstr, Some (e.2, e.1)) e)) [] fw).
  rewrite get_foldl_pushOpt. simpl. rewrite elem_of_pushed. split.
  - by intros ([n' w'] & Hin & [= <- <-]).
  - intros Hin. by exists (num, w).
Qed.

Lemma NoDup_fmap_eq {A B} (f : A → B) (l : list A) x y :
  NoDup (f <$> l) → x ∈ l → y ∈ l → f x = f y → x = y.
Proof.
  induction l as [|z l IH]; csimpl; [by intros _ ?%elem_of_nil|].
  intros [Hz Hnd]%NoDup_cons [->|Hx]%elem_of_cons [->|Hy]%elem_of_cons Hf;
    [done | | | by apply IH].
  - exfalso. apply Hz, list_elem_of_fmap. by exists y.
  - exfalso. apply Hz, list_elem_of_fmap. exists x. by rewrite Hf.
Qed.

End ConflictMap.

(** ** Trimmed, lower-cased words are stable *)

Section Stable.

Lemma lowerUnit_idem c : Str.lowerUnit c ≫= Str.lowerUnit = Str.lowerUnit c.
Proof.
  unfold Str.lowerUnit at 2 3.
  repeat case_match; units; subst; try done;
    cbn [mbind list_bind app]; rewrite ?app_nil_r; unfold Str.lowerUnit;
    repeat case_match; units; try done; lia.
Qed.

Lemma toLowerCase_idem s :
  Str.toLowerCase (Str.toLowerCase s) = Str.toLowerCase s.
Proof.
  unfold Str.toLowerCase. induction s as [|c s IH]; [done|].
  by rewrite bind_cons, bind_app, IH, lowerUnit_idem.
Qed.

Lemma lowerUnit_not_white c :
  Str.isWhiteSpace c = false →
  ∃ d ds, Str.lowerUnit c = d :: ds
          ∧ Forall (λ x, Str.isWhiteSpace x = false) (d :: ds).
Proof.
  intros Hc. unfold Str.lowerUnit.
  repeat case_match; units; subst; eexists _, _; (split; [done|]);
    repeat constructor; try done.
  all: unfold Str.isWhiteSpace in *; apply orb_false_iff in Hc as [Hc1 Hc2];
    apply orb_false_iff; split;
    [ apply bool_decide_eq_false_2; apply bool_decide_eq_false_1 in Hc1;
      rewrite !elem_of_cons, elem_of_nil in *; lia
    | apply andb_false_iff; apply andb_false_iff in Hc2 as [?|?]; units;
      [left | right]; apply N.leb_gt; lia ].
Qed.

Lemma trimStart_head s c :
  head (Str.trimStart s) = Some c → Str.isWhiteSpace c = false.
Proof.
  induction s as [|d s IH]; simpl; [done|].
  destruct (Str.isWhiteSpace d) eqn:Hd; [done|]. simpl. congruence.
Qed.

Lemma trimStart_id s :
  (∀ c, head s = Some c → Str.isWhiteSpace c = false) → Str.trimStart s = s.
Proof.
  destruct s as [|d s]; simpl; [done|]. intros H. by rewrite (H d).
Qed.

Lemma trimStart_last s c :
  last (Str.trimStart s) = Some c → last s = Some c.
Proof.
  induction s as [|d s IH]; simpl; [done|].
  destruct (Str.isWhiteSpace d) eqn:Hd; [|done].
  intros H. specialize (IH H). rewrite last_cons, IH. done.
Qed.

Lemma trimStart_keeps_last s c :
  last s = Some c → Str.isWhiteSpace c = false → last (Str.trimStart s) = Some c.
Proof.
  induction s as [|d s IH]; simpl; [done|].
  destruct (Str.isWhiteSpace d) eqn:Hd; [|done].
  rewrite last_cons. destruct (last s) as [e|] eqn:He.
  - intros [= ->]. auto.
  - intros [= ->]. congruence.
Qed.

Lemma trim_trimmed s : trimmed (Str.trim s).
Proof.
  unfold trimmed, Str.trim, Str.trimEnd. split; intros c.
  - rewrite head_reverse. intros Hc.
    apply trimStart_last in Hc. rewrite last_reverse in Hc.
    by apply trimStart_head in Hc.
  - rewrite last_reverse. apply trimStart_head.
Qed.

Lemma trim_id s : trimmed s → Str.trim s = s.
Proof.
  intros [Hh Hl]. unfold Str.trim, Str.trimEnd.
  rewrite (trimStart_id s Hh), trimStart_id, reverse_involutive; [done|].
  intros c. rewrite head_reverse. apply Hl.
Qed.

Lemma toLowerCase_trimmed s : trimmed s → trimmed (Str.toLowerCase s).
Proof.
  intros [Hh Hl]. unfold Str.toLowerCase. split; intros c.
  - destruct s as [|d s]; [done|]. rewrite bind_cons.
    destruct (lowerUnit_not_white d (Hh d eq_refl)) as (e & es & -> & He).
    simpl. intros [= <-]. by inversion He.
  - destruct s as [|d s _] using rev_ind; [done|].
    rewrite last_snoc in Hl. rewrite bind_app.
    change ([d] ≫= Str.lowerUnit) with (Str.lowerUnit d ++ []). rewrite app_nil_r.
    destruct (lowerUnit_not_white d (Hl d eq_refl)) as (e & es & -> & He).
    rewrite last_app. destruct (last (e :: es)) as [x|] eqn:Hx;
      [|by apply last_None in Hx].
    intros [= <-]. rewrite Forall_forall in He. apply He.
    by apply last_Some_elem_of.
Qed.

Lemma toLowerCase_nil s : Str.toLowerCase s = [] → s = [].
Proof.
  destruct s as [|c s]; [done|]. unfold Str.toLowerCase. rewrite bind_cons.
  unfold Str.lowerUnit. by repeat case_match.
Qed.

(** A word of [filledWords] goes through the normalisation of
    [groupHomonyms] unchanged. *)
Lemma collected_filled doubleMetaphone w :
  Str.falsy (Str.trim w) = false →
  let word := Str.toLowerCase (Str.trim w) in
  collected doubleMetaphone false word = Some ((doubleMetaphone word).1, word).
Proof.
  intros Hw word. unfold collected.
  assert (Hword : Str.trim (Str.toLowerCase word) = word).
  { unfold word. rewrite toLowerCase_idem.
    apply trim_id, toLowerCase_trimmed, trim_trimmed. }
  rewrite Hword. destruct word as [|c word'] eqn:E; [|done].
  apply toLowerCase_nil in E. by rewrite E in Hw.
Qed.

End Stable.

(** ** Symmetry of the conflict map *)

Section Symmetry.

Variable doubleMetaphone : jstr → jstr * jstr.

(** A number lies in one group at most. *)
Lemma numbersOfGroup_unique entries g g' num :
  let fw := filledWords entries in
  let W := foldl (λ m e, JsMap.push m e.2 e.1) [] fw in
  let gs := groupHomonyms doubleMetaphone fw.*2 false in
  NoDup entries.*1 →
  g ∈ gs → g' ∈ gs →
  num ∈ numbersOfGroup W g → num ∈ numbersOfGroup W g' → g = g'.
Proof.
  intros fw W gs Hnd Hg Hg'.
  intros (w & Hw & Hn%wordToNumbers_spec)%elem_of_numbersOfGroup.
  intros (w' & Hw' & Hn'%wordToNumbers_spec)%elem_of_numbersOfGroup.
  assert (w = w') as <- by by eapply filledWords_functional.
  apply (NoDup_fmap_eq phoneticCode gs); [apply groupHomonyms_codes_NoDup | done..|].
  by rewrite <- (groupHomonyms_word_code _ _ _ g w Hg Hw),
             <- (groupHomonyms_word_code _ _ _ g' w Hg' Hw').
Qed.

Lemma conflictsWith_sym entries a b :
  NoDup entries.*1 →
  conflictsWith (homonymConflicts doubleMetaphone entries) a b →
  conflictsWith (homonymConflicts doubleMetaphone entries) b a.
Proof.
  intros Hnd (l & Hl & Hb). unfold conflictsWith, homonymConflicts in *.
  cbv zeta in *. destruct (length (filledWords entries) =? 0)%nat; [done|].
  set (W := foldl _ [] (filledWords entries)) in *.
  set (gs := groupHomonyms doubleMetaphone _ false) in *.
  apply conflicts_sound in Hl as [Hl | (g & Hg & Hlen & Ha & ->)]; [done|].
  apply list_elem_of_filter in Hb as [Hba Hb].
  destruct (conflicts_complete W gs [] b) as [l' Hl'].
  { right. by exists g. }
  exists l'. split; [done|].
  apply conflicts_sound in Hl' as [Hl' | (g' & Hg' & _ & Hb' & ->)]; [done|].
  assert (g = g') as <- by by eapply numbersOfGroup_unique.
  apply list_elem_of_filter. split; [congruence | done].
Qed.

End Symmetry.

(** ** The conflict map, characterised *)

Section ConflictSpec.

Variable doubleMetaphone : jstr → jstr * jstr.

Lemma two_split {A} (l : list A) x y :
  x ∈ l → y ∈ l → x ≠ y →
  ∃ l1 l2 l3, l = l1 ++ x :: l2 ++ y :: l3 ∨ l = l1 ++ y :: l2 ++ x :: l3.
Proof.
  intros (l1 & l2 & ->)%list_elem_of_split Hy Hxy.
  apply elem_of_app in Hy as [Hy | [Hy | Hy]%elem_of_cons]; [| congruence |].
  - apply list_elem_of_split in Hy as (l1a & l1b & ->).
    exists l1a, l1b, l2. right. by rewrite <- app_assoc.
  - apply list_elem_of_split in Hy as (l2a & l2b & ->).
    exists l1, l2a, l2b. by left.
Qed.

Lemma two_elements_length {A} (l : list A) x y :
  x ∈ l → y ∈ l → x ≠ y → (1 < length l)%nat.
Proof.
  intros Hx Hy Hxy.
  destruct (two_split l x y Hx Hy Hxy) as (l1 & l2 & l3 & [-> | ->]);
    rewrite !length_app; simpl; rewrite !length_app; simpl; lia.
Qed.

Lemma pushed_app {A B} (f : A → option (jstr * B)) l1 l2 k :
  pushed f (l1 ++ l2) k = pushed f l1 k ++ pushed f l2 k.
Proof. unfold pushed. by rewrite omap_app, filter_app, fmap_app. Qed.

Lemma pushed_cons_hit {A B} (f : A → option (jstr * B)) x l k v :
  f x = Some (k, v) → pushed f (x :: l) k = v :: pushed f l k.
Proof.
  intros Hx. unfold pushed. cbn [omap list_omap]. rewrite Hx.
  by rewrite filter_cons_True.
Qed.

Lemma pushed_two {A B} (f : A → option (jstr * B)) l1 x l2 y l3 k v v' :
  f x = Some (k, v) → f y = Some (k, v') →
  (1 < length (pushed f (l1 ++ x :: l2 ++ y :: l3) k))%nat.
Proof.
  intros Hx Hy.
  rewrite pushed_app, (pushed_cons_hit _ _ _ _ _ Hx), pushed_app,
          (pushed_cons_hit _ _ _ _ _ Hy).
  rewrite !length_app; simpl; rewrite !length_app; simpl; lia.
Qed.

Lemma filledWords_word entries num w :
  (num, w) ∈ filledWords entries →
  ∃ w0, Str.falsy (Str.trim w0) = false ∧ w = Str.toLowerCase (Str.trim w0).
Proof.
  unfold filledWords. intros ([n0 w0] & [= -> ->] & [Hf _]%list_elem_of_filter)%list_elem_of_fmap.
  exists w0. split; [|done]. simpl in Hf.
  apply andb_true_iff in Hf as [_ Hf]. by apply negb_true_iff in Hf.
Qed.

Lemma collected_filledWords entries num w :
  (num, w) ∈ filledWords entries →
  collected doubleMetaphone false w = Some ((doubleMetaphone w).1, w).
Proof.
  intros (w0 & Hw0 & ->)%filledWords_word. by apply collected_filled.
Qed.

(** Two slots conflict exactly when they are different and their words, as
    stored in [filledWords], have the same phonetic key; the words themselves
    may be equal. *)
Lemma conflictsWith_spec entries a b :
  NoDup entries.*1 →
  conflictsWith (homonymConflicts doubleMetaphone entries) a b ↔
  a ≠ b ∧ ∃ wa wb,
    (a, wa) ∈ filledWords entries ∧ (b, wb) ∈ filledWords entries
    ∧ (doubleMetaphone wa).1 = (doubleMetaphone wb).1.
Proof.
  intros Hnd. unfold conflictsWith, homonymConflicts. cbv zeta.
  set (fw := filledWords entries).
  set (W := foldl _ [] fw).
  set (gs := groupHomonyms doubleMetaphone _ false).
  split.
  - intros (l & Hl & Hb).
    destruct (length fw =? 0)%nat; [done|].
    apply conflicts_sound in Hl as [Hl | (g & Hg & _ & Ha & ->)]; [done|].
    apply list_elem_of_filter in Hb as [Hba Hb].
    apply elem_of_numbersOfGroup in Ha as (wa & Hwa & Ha%wordToNumbers_spec).
    apply elem_of_numbersOfGroup in Hb as (wb & Hwb & Hb%wordToNumbers_spec).
    split; [congruence|]. exists wa, wb. split_and!; [done..|].
    by rewrite (groupHomonyms_word_code _ _ _ g wa Hg Hwa),
               (groupHomonyms_word_code _ _ _ g wb Hg Hwb).
  - intros (Hab & wa & wb & Ha & Hb & Hkey).
    destruct (length fw =? 0)%nat eqn:Hlen.
    { apply Nat.eqb_eq, nil_length_inv in Hlen. rewrite Hlen in Ha.
      by apply elem_of_nil in Ha. }
    pose proof (collected_filledWords _ _ _ Ha) as Hca.
    pose proof (collected_filledWords _ _ _ Hb) as Hcb.
    rewrite <- Hkey in Hcb.
    set (k := (doubleMetaphone wa).1) in *.
    set (g := {| phoneticCode := k;
                 words := JsSet.of_list (pushed (collected doubleMetaphone false) fw.*2 k) |}).
    assert (Hg : g ∈ gs).
    { apply elem_of_groupHomonyms. split; [|done]. simpl.
      assert (Hne : (a, wa) ≠ (b, wb)) by congruence.
      destruct (two_split fw _ _ Ha Hb Hne) as (l1 & l2 & l3 & [-> | ->]);
        rewrite !fmap_app, !fmap_cons, !fmap_app, !fmap_cons; simpl;
        by eapply pushed_two. }
    assert (HaN : a ∈ numbersOfGroup W g).
    { apply elem_of_numbersOfGroup. exists wa. split; [|by apply wordToNumbers_spec].
      simpl. apply elem_of_of_list, elem_of_pushed. exists wa. split; [|done].
      apply list_elem_of_fmap. by exists (a, wa). }
    assert (HbN : b ∈ numbersOfGroup W g).
    { apply elem_of_numbersOfGroup. exists wb. split; [|by apply wordToNumbers_spec].
      simpl. apply elem_of_of_list, elem_of_pushed. exists wb. split; [|done].
      apply list_elem_of_fmap. by exists (b, wb). }
    assert (HlenN : (1 < length (numbersOfGroup W g))%nat)
      by exact (two_elements_length _ a b HaN HbN Hab).
    destruct (conflicts_complete W gs [] a) as [l Hl].
    { right. by exists g. }
    exists l. split; [done|].
    apply conflicts_sound in Hl as [Hl | (g' & Hg' & _ & Ha' & ->)]; [done|].
    assert (g = g') as <-
      by exact (numbersOfGroup_unique doubleMetaphone entries g g' a Hnd Hg Hg' HaN Ha').
    apply list_elem_of_filter. split; [congruence | done].
Qed.

(** In particular two slots that hold the same word conflict. *)
Lemma same_word_conflicts entries a b w :
  NoDup entries.*1 → a ≠ b →
  (a, w) ∈ filledWords entries → (b, w) ∈ filledWords entries →
  conflictsWith (homonymConflicts doubleMetaphone entries) a b.
Proof.
  intros Hnd Hab Ha Hb. apply conflictsWith_spec; [done|].
  split; [done|]. by exists w, w.
Qed.

End ConflictSpec.

(** C9: the conflict map is symmetric and irreflexive, for every table of
    words (an object: its keys are pairwise distinct) and every phonetic
    key function. *)
Theorem homonymConflicts_symmetric_irreflexive
    (doubleMetaphone : jstr → jstr * jstr) (entries : list (jstr * jstr)) :
  NoDup entries.*1 →
  ∀ a b,
    (conflictsWith (homonymConflicts doubleMetaphone entries) a b
     ↔ conflictsWith (homonymConflicts doubleMetaphone entries) b a)
    ∧ ¬ conflictsWith (homonymConflicts doubleMetaphone entries) a a.
Proof.
  intros Hnd a b. split; [split; by apply conflictsWith_sym|].
  intros (l & Hl & Ha). unfold homonymConflicts in Hl. cbv zeta in Hl.
  destruct (length (filledWords entries) =? 0)%nat; [done|].
  apply conflicts_sound in Hl as [Hl | (g & _ & _ & _ & ->)]; [done|].
  by apply list_elem_of_filter in Ha as [? _].
Qed.

Lemma homonymConflicts_symmetric_irreflexive_witness :
  conflictsWith
    (homonymConflicts firstSound
       [(js "00", js "there"); (js "01", js "their"); (js "02", js "sun")])
    (js "00") (js "01")
  ↔ conflictsWith
    (homonymConflicts firstSound
       [(js "00", js "there"); (js "01", js "their"); (js "02", js "sun")])
    (js "01") (js "00").
Proof.
  apply (homonymConflicts_symmetric_irreflexive firstSound
           [(js "00", js "there"); (js "01", js "their"); (js "02", js "sun")]).
  apply (bool_decide_eq_true_1 _). by vm_compute.
Defined.

(** ** Runs of the homonym grouping *)

Section Runs.

Variable doubleMetaphone : jstr → jstr * jstr.

Lemma push_nil {A} k (v : A) : JsMap.push [] k v = [(k, [v])].
Proof.
  unfold JsMap.push. cbn [JsMap.has JsMap.get negb JsMap.set].
  by rewrite !decide_True.
Qed.

Lemma push_head {A} k (l : list A) m v :
  JsMap.push ((k, l) :: m) k v = (k, l ++ [v]) :: m.
Proof.
  unfold JsMap.push, JsMap.has. cbn [JsMap.get].
  rewrite !decide_True by done. cbn [negb JsMap.get JsMap.set].
  by rewrite !decide_True.
Qed.

Lemma collected_tea :
  collected doubleMetaphone false (js "tea")
  = Some ((doubleMetaphone (js "tea")).1, js "tea").
Proof. by vm_compute. Qed.

Lemma collected_there_their :
  collected doubleMetaphone false (js "there")
  = Some ((doubleMetaphone (js "there")).1, js "there")
  ∧ collected doubleMetaphone false (js "their")
    = Some ((doubleMetaphone (js "their")).1, js "their").
Proof. split; by vm_compute. Qed.

(** The example of the design document: when "there" and "their" have the
    same phonetic key, slots 00 and 01 conflict with each other. *)
Lemma homonymConflicts_same_key :
  (doubleMetaphone (js "there")).1 = (doubleMetaphone (js "their")).1 →
  groupHomonyms doubleMetaphone [js "there"; js "their"] false
  = [{| phoneticCode := (doubleMetaphone (js "there")).1;
        words := [js "there"; js "their"] |}]
  ∧ homonymConflicts doubleMetaphone [(js "00", js "there"); (js "01", js "their")]
    = [(js "00", [js "01"]); (js "01", [js "00"])].
Proof.
  intros Hkey.
  assert (Hg : groupHomonyms doubleMetaphone [js "there"; js "their"] false
               = [{| phoneticCode := (doubleMetaphone (js "there")).1;
                     words := [js "there"; js "their"] |}]).
  { rewrite groupHomonyms_eq. cbn [foldl].
    destruct collected_there_their as [-> ->].
    cbn [pushOpt]. by rewrite <- Hkey, push_nil, push_head. }
  split; [done|]. unfold homonymConflicts.
  replace (filledWords [(js "00", js "there"); (js "01", js "their")])
    with [(js "00", js "there"); (js "01", js "their")] by by vm_compute.
  cbv zeta. cbn [length Nat.eqb fmap list_fmap snd].
  rewrite Hg. by vm_compute.
Qed.

Lemma groupHomonyms_tea_tea :
  groupHomonyms doubleMetaphone [js "tea"; js "tea"] false
  = [{| phoneticCode := (doubleMetaphone (js "tea")).1; words := [js "tea"] |}].
Proof.
  rewrite groupHomonyms_eq. cbn [foldl]. rewrite collected_tea.
  cbn [pushOpt]. by rewrite push_nil, push_head.
Qed.

End Runs.

(** C4, at the input that separates the code from the design: for the words
    "tea", "tea" the returned list holds one group, whose only word is "tea";
    in the table 00: tea, 01: tea the conflict map then lists 01 for 00 and
    00 for 01.  This holds whatever the phonetic key function is. *)
Theorem groupHomonyms_repeated_word (doubleMetaphone : jstr → jstr * jstr) :
  groupHomonyms doubleMetaphone [js "tea"; js "tea"] false
  = [{| phoneticCode := (doubleMetaphone (js "tea")).1; words := [js "tea"] |}]
  ∧ homonymConflicts doubleMetaphone [(js "00", js "tea"); (js "01", js "tea")]
    = [(js "00", [js "01"]); (js "01", [js "00"])].
Proof.
  split; [apply groupHomonyms_tea_tea|].
  unfold homonymConflicts.
  replace (filledWords [(js "00", js "tea"); (js "01", js "tea")])
    with [(js "00", js "tea"); (js "01", js "tea")] by by vm_compute.
  cbv zeta. cbn [length Nat.eqb fmap list_fmap snd].
  rewrite groupHomonyms_tea_tea. by vm_compute.
Qed.

(** * Further properties of the component *)

(** ** What the encoder keeps of a word *)

Section Encoder.

Lemma concat_cons_length (sym : jstr) (ps : list jstr) n m :
  length sym = n → length (concat ps) = m →
  length (concat (sym :: ps)) = (n + m)%nat.
Proof. intros <- <-. simpl. by rewrite length_app. Qed.

Lemma wordToPhonetics_loop_lengths l :
  length (concat (wordToPhonetics_loop l)) = length l
  ∧ Forall (λ p, (1 ≤ length p ≤ 2)%nat) (wordToPhonetics_loop l).
Proof.
  induction l as [|char rest [IH1 IH1'] [IH2 IH2']] using tail_induction.
  { split; [done | constructor]. }
  rewrite wordToPhonetics_loop_cons. cbv zeta.
  destruct (next_is "h" (head rest)) eqn:Hh;
    [|destruct (next_is "u" (head rest)) eqn:Hu].
  - apply next_is_head in Hh as [rest' ->]. cbn [head tail next_is] in *.
    repeat case_match;
      (split; [erewrite concat_cons_length; [|reflexivity|eassumption]; simpl; lia
              | constructor; [simpl; lia | done] ]).
  - apply next_is_head in Hu as [rest' ->]. cbn [head tail next_is] in *.
    repeat case_match;
      (split; [erewrite concat_cons_length; [|reflexivity|eassumption]; simpl; lia
              | constructor; [simpl; lia | done] ]).
  - rewrite !andb_false_r.
    repeat case_match;
      (split; [erewrite concat_cons_length; [|reflexivity|eassumption]; simpl; lia
              | constructor; [simpl; lia | done] ]).
Qed.

Lemma strip_lowerUnit_length c :
  (length (Str.stripNonLetters (Str.lowerUnit c)) ≤ 1)%nat.
Proof.
  unfold Str.lowerUnit, Str.stripNonLetters.
  repeat case_match; rewrite ?filter_cons, ?filter_nil;
    repeat case_decide; simpl; try lia.
  all: exfalso; unfold Str.isLowerAZ in *; by vm_compute in *.
Qed.

Lemma normalize_length word : (length (normalize word) ≤ length word)%nat.
Proof.
  induction word as [|c word IH]; [done|].
  rewrite normalize_cons, length_app. pose proof (strip_lowerUnit_length c).
  simpl. lia.
Qed.

Lemma digitsOf_length ps : (length (digitsOf ps) ≤ length ps)%nat.
Proof.
  induction ps as [|p ps IH]; [done|].
  rewrite digitsOf_cons. case_match; simpl; lia.
Qed.

Lemma concat_length_ge (ps : list jstr) :
  Forall (λ p, (1 ≤ length p ≤ 2)%nat) ps →
  (length ps ≤ length (concat ps) ≤ 2 * length ps)%nat.
Proof.
  induction 1 as [|p ps Hp _ IH]; simpl; [lia|].
  rewrite length_app. lia.
Qed.

Lemma wordToPhonetics_loop_identity l :
  Forall (λ c, c ≠ unit_of "c" ∧ c ≠ unit_of "g") l →
  concat (wordToPhonetics_loop l) = l.
Proof.
  induction l as [|char rest IH1 IH2] using tail_induction; [done|].
  intros [[Hc Hg] Hrest]%Forall_cons.
  assert (Htail : Forall (λ c, c ≠ unit_of "c" ∧ c ≠ unit_of "g") (tail rest)).
  { destruct rest; [done|]. by apply Forall_cons in Hrest as [_ ?]. }
  specialize (IH1 Hrest). specialize (IH2 Htail).
  rewrite wordToPhonetics_loop_cons. cbv zeta.
  assert (is_unit "c" char = false) as -> by by apply N.eqb_neq.
  assert (is_unit "g" char = false) as -> by by apply N.eqb_neq.
  cbn [andb].
  destruct (next_is "h" (head rest)) eqn:Hh;
    [|destruct (next_is "u" (head rest)) eqn:Hu].
  - apply next_is_head in Hh as [rest' ->]. cbn [head tail next_is] in *.
    repeat case_match; unfold is_unit in *; units; subst;
      rewrite concat_cons, ?IH1, ?IH2; done.
  - apply next_is_head in Hu as [rest' ->]. cbn [head tail next_is] in *.
    repeat case_match; unfold is_unit in *; units; subst;
      rewrite concat_cons, ?IH1, ?IH2; done.
  - rewrite !andb_false_r. by rewrite concat_cons, IH1.
Qed.

Lemma wordDigits_le_letters word :
  (length (wordDigits word) ≤ length (normalize word))%nat.
Proof.
  destruct (wordToPhonetics_loop_lengths (normalize word)) as [Hlen Hsym].
  pose proof (digitsOf_length (wordToPhonetics word)).
  pose proof (concat_length_ge _ Hsym). unfold wordDigits, wordToPhonetics in *. lia.
Qed.

End Encoder.

(** X1: the symbols of a word are one or two code units long and use up
    each letter of the normalised word once; there are no more digits than
    symbols, no more symbols than letters, and no more letters than code
    units in the word. *)
Theorem wordToPhonetics_consumes (word : jstr) :
  length (concat (wordToPhonetics word)) = length (normalize word)
  ∧ Forall (λ p, (1 ≤ length p ≤ 2)%nat) (wordToPhonetics word)
  ∧ (length (wordDigits word) ≤ length (wordToPhonetics word))%nat
  ∧ (length (wordToPhonetics word) ≤ length (normalize word))%nat
  ∧ (length (normalize word) ≤ length word)%nat.
Proof.
  destruct (wordToPhonetics_loop_lengths (normalize word)) as [Hlen Hsym].
  split_and!; [done | done | apply digitsOf_length | | apply normalize_length].
  unfold wordToPhonetics. rewrite <- Hlen. by apply concat_length_ge.
Qed.

(** X2: a word without the letters c and g is spelled back by its symbols:
    their concatenation is the normalised word. *)
Theorem wordToPhonetics_spells (word : jstr) :
  Forall (λ c, c ≠ unit_of "c" ∧ c ≠ unit_of "g") (normalize word) →
  concat (wordToPhonetics word) = normalize word.
Proof. apply wordToPhonetics_loop_identity. Qed.

Lemma wordToPhonetics_spells_witness :
  concat (wordToPhonetics (js "Tooth-brush")) = js "toothbrush".
Proof.
  apply (wordToPhonetics_spells (js "Tooth-brush")).
  apply (bool_decide_eq_true_1 _). by vm_compute.
Defined.

(** ** The digits of a word *)

Section Digits.

Lemma digitMap_decimal :
  map_Forall (λ _ v, match v with [d] => isDigit d | _ => false end = true) digitMap.
Proof. apply (bool_decide_eq_true_1 _). by vm_compute. Qed.

Lemma wordDigits_decimal word :
  Forall (λ v, ∃ d, v = VStr [d] ∧ isDigit d = true) (wordDigits word).
Proof.
  apply Forall_forall. intros v (p & Hp & Hv)%list_elem_of_omap.
  rewrite (phoneticToDigit_own p (symbols_not_inherited word p Hp)) in Hv.
  destruct (digitMap !! p) as [ds|] eqn:Hds; [|done].
  injection Hv as <-. apply digitMap_decimal in Hds.
  destruct ds as [|d [|? ?]]; try done. by exists d.
Qed.

Lemma lowerUnit_white c :
  Str.isWhiteSpace c = true → Str.stripNonLetters (Str.lowerUnit c) = [].
Proof.
  unfold Str.isWhiteSpace. intros [Hc|Hc]%orb_true_iff.
  - apply bool_decide_eq_true_1 in Hc.
    apply list_elem_of_In in Hc. simpl in Hc. destruct_or!; try done; by subst c.
  - units. unfold Str.lowerUnit, Str.stripNonLetters.
    repeat case_match; units; try lia.
    rewrite filter_cons, filter_nil. case_decide as Hz; [|done].
    unfold Str.isLowerAZ in Hz. units. lia.
Qed.

Lemma blank_normalize word : blank word → normalize word = [].
Proof.
  induction 1 as [|c word Hc _ IH]; [done|].
  by rewrite normalize_cons, (lowerUnit_white c Hc), IH.
Qed.

Lemma blank_wordDigits word : blank word → wordDigits word = [].
Proof.
  intros Hw. unfold wordDigits, wordToPhonetics. by rewrite blank_normalize.
Qed.

Lemma sublist_pair {A} (x y a b : A) :
  [x; y] `sublist_of` [a; b] ↔ x = a ∧ y = b.
Proof.
  split; [|by intros [-> ->]].
  intros H. apply sublist_cons_r in H as [H | (l' & [= -> <-] & H)].
  - apply sublist_length in H. simpl in H. lia.
  - apply sublist_cons_r in H as [H | (l'' & [= -> <-] & _)]; [|done].
    apply sublist_length in H. simpl in H. lia.
Qed.

Lemma filter_unique {A} (P : A → Prop) `{!∀ x, Decision (P x)} (l : list A) x :
  NoDup l → x ∈ l → (∀ y, y ∈ l → P y ↔ y = x) → filter P l = [x].
Proof.
  induction l as [|z l IH]; [by intros _ ?%elem_of_nil|].
  intros [Hz Hnd]%NoDup_cons Hx HP. rewrite filter_cons.
  destruct (decide (P z)) as [HPz|HPz].
  - assert (z = x) as -> by (apply HP; [left | done]). f_equal.
    clear IH Hx. induction l as [|u l IHl]; [done|].
    apply not_elem_of_cons in Hz as [Hxu Hz]. apply NoDup_cons in Hnd as [_ Hnd].
    rewrite filter_cons, decide_False.
    + apply IHl; [done.. |].
      intros y [->|Hy]%elem_of_cons; apply HP; [left | right; by right].
    + intros Hu. apply Hxu. symmetry. apply HP; [right; left | done].
  - assert (z ≠ x) as Hzx by (intros ->; apply HPz, HP; [left | done]).
    apply elem_of_cons in Hx as [->|Hx]; [done|].
    apply IH; [done..|]. intros y Hy. apply HP. by right.
Qed.

Lemma allKeys_NoDup : NoDup allKeys.
Proof. apply (bool_decide_eq_true_1 _). by vm_compute. Qed.

End Digits.

(** X3: a word that is not blank validates a key only if every code unit of
    the key is a decimal digit, and the key is no longer than the digit
    sequence of the word, hence no longer than its number of letters. *)
Theorem valid_key_shape (num word : jstr) :
  ¬ blank word →
  validateWord num word = true →
  Forall (λ c, isDigit c = true) num
  ∧ (length num ≤ length (wordDigits word))%nat
  ∧ (length num ≤ length (normalize word))%nat.
Proof.
  intros Hw Hv. apply (validateWord_nonblank _ _ Hw) in Hv.
  assert (Hlen : (length num ≤ length (wordDigits word))%nat).
  { apply sublist_length in Hv. unfold Str.split in Hv.
    by rewrite length_fmap, length_map in Hv. }
  split_and!; [|done|].
  - apply Forall_forall. intros c Hc.
    assert (Hin : VStr [c] ∈ wordDigits word).
    { eapply sublist_elem_of; [exact Hv|]. apply list_elem_of_fmap.
      exists [c]. split; [done|]. unfold Str.split.
      apply list_elem_of_In, (in_map (λ c, [c])), list_elem_of_In, Hc. }
    pose proof (wordDigits_decimal word) as Hd. rewrite Forall_forall in Hd.
    by destruct (Hd _ Hin) as (d & [= ->] & ?).
  - pose proof (wordDigits_le_letters word). lia.
Qed.

Lemma valid_key_shape_witness :
  Forall (λ c, isDigit c = true) (js "12")
  ∧ (length (js "12") ≤ length (wordDigits (js "tan")))%nat
  ∧ (length (js "12") ≤ length (normalize (js "tan")))%nat.
Proof.
  apply valid_key_shape.
  - intros H. by inversion H.
  - by vm_compute.
Defined.

(** X4: the breakdown shown under a word lists, for every word, exactly the
    symbols of the encoder, and its digits that are not null are the digit
    sequence that [validateWord] searches. *)
Theorem getPhoneticBreakdown_agrees (word : jstr) :
  Breakdown.sound <$> getPhoneticBreakdown word = wordToPhonetics word
  ∧ omap Breakdown.digit (getPhoneticBreakdown word) = wordDigits word.
Proof.
  unfold getPhoneticBreakdown.
  destruct (Str.falsy (Str.trim word)) eqn:Hw.
  - apply falsy_trim_iff in Hw. unfold wordDigits, wordToPhonetics.
    by rewrite (blank_normalize _ Hw).
  - cbv zeta. unfold wordDigits, digitsOf.
    induction (wordToPhonetics word) as [|p ps [IH1 IH2]]; [done|].
    rewrite !fmap_cons. cbn [Breakdown.sound]. rewrite IH1. split; [done|].
    cbn [omap list_omap Breakdown.digit]. by rewrite IH2.
Qed.

(** X5: a word whose digit sequence is contained, as a subsequence, in that
    of another word satisfies no key that the other word does not. *)
Theorem validPositions_monotone (w w' : jstr) :
  wordDigits w `sublist_of` wordDigits w' →
  getValidPositionsForWord w ⊆ getValidPositionsForWord w'.
Proof.
  intros Hsub k. unfold getValidPositionsForWord.
  destruct (Str.falsy (Str.trim w)) eqn:Hw; [by intros ?%elem_of_nil|].
  apply falsy_trim_false in Hw.
  intros [Hk Hin]%list_elem_of_filter.
  apply (validateWord_nonblank _ _ Hw) in Hk.
  assert (Hk' : (VStr <$> Str.split k) `sublist_of` wordDigits w') by by etrans.
  destruct (Str.falsy (Str.trim w')) eqn:Hw'.
  - apply falsy_trim_iff, blank_wordDigits in Hw'. rewrite Hw' in Hk'.
    apply sublist_nil_r in Hk'. fold allKeys in Hin.
    apply elem_of_allKeys in Hin. by destruct k as [|? [|? [|? ?]]].
  - apply falsy_trim_false in Hw'. apply list_elem_of_filter. split; [|done].
    by apply validateWord_nonblank.
Qed.

Lemma validPositions_monotone_witness :
  getValidPositionsForWord (js "tan") ⊆ getValidPositionsForWord (js "titan").
Proof.
  apply validPositions_monotone. vm_compute.
  apply sublist_skip, sublist_cons, sublist_skip, sublist_nil.
Defined.

Lemma positions_of_two_digits (word : jstr) (a b : N) :
  wordDigits word = [VStr [a]; VStr [b]] →
  getValidPositionsForWord word = [[a; b]].
Proof.
  intros Hd.
  assert (Hw : ¬ blank word).
  { intros Hw%blank_wordDigits. by rewrite Hw in Hd. }
  pose proof (wordDigits_decimal word) as Hdec. rewrite Hd in Hdec.
  apply Forall_cons in Hdec as [(? & [= <-] & Ha) Hdec].
  apply Forall_cons in Hdec as [(? & [= <-] & Hb) _].
  unfold getValidPositionsForWord.
  rewrite (proj2 (falsy_trim_false _) Hw). fold allKeys.
  apply filter_unique; [apply allKeys_NoDup | |].
  - apply elem_of_allKeys. simpl. by rewrite Ha, Hb.
  - intros k Hk%elem_of_allKeys. rewrite (validateWord_nonblank _ _ Hw), Hd.
    destruct k as [|k1 [|k2 [|? ?]]]; try done. simpl.
    rewrite sublist_pair. split; [by intros [[= ->] [= ->]] | by intros [= -> ->]].
Qed.

(** X6: a word with exactly two digits satisfies one key only, the key made
    of these two digits. *)
Theorem validPositions_two_digits (word : jstr) (a b : N) :
  wordDigits word = [VStr [a]; VStr [b]] →
  getValidPositionsForWord word = [[a; b]].
Proof. apply positions_of_two_digits. Qed.

Lemma validPositions_two_digits_witness :
  getValidPositionsForWord (js "tan") = [js "12"].
Proof.
  apply (validPositions_two_digits (js "tan") 49 50). by vm_compute.
Defined.

(** ** The hints of the default mapping *)

(** X7: with the mapping that [App] passes, the hint of a key 00..99 names,
    for each digit, a sound that [phoneticToDigit] maps to that digit; the two
    sounds written one after the other form a word whose digit sequence is
    the key, which is valid for the key and for no other key. *)
Theorem default_hint_valid (d1 d2 : N) :
  isDigit d1 = true → isDigit d2 = true →
  let hint := patternOf defaultMapping in
  getExpectedPattern defaultMapping [d1; d2] = hint [d1] ++ js " + " ++ hint [d2]
  ∧ phoneticToDigit (hint [d1]) = Some (VStr [d1])
  ∧ wordDigits (hint [d1] ++ hint [d2]) = [VStr [d1]; VStr [d2]]
  ∧ validateWord [d1; d2] (hint [d1] ++ hint [d2]) = true
  ∧ getValidPositionsForWord (hint [d1] ++ hint [d2]) = [[d1; d2]].
Proof.
  intros H1%isDigit_cases H2%isDigit_cases hint.
  assert (Hd : phoneticToDigit (hint [d1]) = Some (VStr [d1])
               ∧ wordDigits (hint [d1] ++ hint [d2]) = [VStr [d1]; VStr [d2]]
               ∧ validateWord [d1; d2] (hint [d1] ++ hint [d2]) = true).
  { destruct_or!; subst d1 d2; by vm_compute. }
  destruct Hd as (Hp & Hd & Hv). split_and!; [done.. |].
  by apply positions_of_two_digits.
Qed.

Lemma default_hint_valid_witness :
  getExpectedPattern defaultMapping (js "61") = js "sh + t"
  ∧ validateWord (js "61") (js "sht") = true.
Proof.
  destruct (default_hint_valid 54 49 eq_refl eq_refl) as (Hp & _ & _ & Hv & _).
  split; [exact Hp | exact Hv].
Defined.

(** ** The text format *)

Section TextFormat.

Lemma split_nonempty sep s : Text.split sep s ≠ [].
Proof. destruct s as [|c s]; simpl; [done|]. by repeat case_match. Qed.

Lemma split_no_sep sep x : sep ∉ x → Text.split sep x = [x].
Proof.
  induction x as [|c x IH]; [done|].
  intros [Hc Hx]%not_elem_of_cons. simpl.
  rewrite (proj2 (N.eqb_neq c sep)) by done. by rewrite IH.
Qed.

Lemma split_app_sep sep x s :
  sep ∉ x → Text.split sep (x ++ sep :: s) = x :: Text.split sep s.
Proof.
  induction x as [|c x IH]; simpl.
  - by rewrite N.eqb_refl.
  - intros [Hc Hx]%not_elem_of_cons.
    rewrite (proj2 (N.eqb_neq c sep)) by done. by rewrite IH.
Qed.

Lemma split_join sep lines :
  lines ≠ [] → Forall (λ l, sep ∉ l) lines →
  Text.split sep (Text.join [sep] lines) = lines.
Proof.
  intros Hne Hl. induction Hl as [|l lines Hl Hlines IH]; [done|].
  destruct lines as [|l' lines].
  - simpl. by apply split_no_sep.
  - change (Text.join [sep] (l :: l' :: lines))
      with (l ++ sep :: Text.join [sep] (l' :: lines)).
    rewrite split_app_sep by done. by rewrite IH.
Qed.

Lemma matchDotPlus_Some rest m :
  Text.matchDotPlus rest = Some m ↔ m = rest ∧ rest ≠ [] ∧ noLineTerminator rest.
Proof.
  unfold Text.matchDotPlus, noLineTerminator. destruct rest as [|c rest].
  { split; [done | by intros (_ & ? & _)]. }
  destruct (forallb _ (c :: rest)) eqn:Hall.
  - pose proof (proj1 (forallb_forall _ _) Hall) as Hall'.
    split; [intros [= <-] | by intros [-> _]].
    split_and!; [done..|]. apply Forall_forall. intros x Hx%list_elem_of_In.
    by apply negb_true_iff, Hall'.
  - split; [done|]. intros (_ & _ & Hno). exfalso.
    assert (forallb (λ c, negb (Text.isLineTerminator c)) (c :: rest) = true);
      [|congruence].
    apply (proj2 (forallb_forall _ _)). intros x Hx%list_elem_of_In.
    rewrite Forall_forall in Hno. by rewrite (Hno x Hx).
Qed.

(** What [\s*(.+)$] captures: the line without some white space at its
    front, not empty and free of line terminators. *)
Lemma matchSpacesDotPlus_Some rest m :
  Text.matchSpacesDotPlus rest = Some m →
  m ≠ [] ∧ noLineTerminator m ∧ ∃ ws, blank ws ∧ rest = ws ++ m.
Proof.
  induction rest as [|c rest IH]; simpl; [done|].
  assert (Hwhole : Text.matchDotPlus (c :: rest) = Some m →
    m ≠ [] ∧ noLineTerminator m ∧ ∃ ws, blank ws ∧ c :: rest = ws ++ m).
  { intros (-> & ? & ?)%matchDotPlus_Some. split_and!; [done..|].
    exists []. split; [constructor | done]. }
  destruct (Str.isWhiteSpace c) eqn:Hc; [|done].
  destruct (Text.matchSpacesDotPlus rest) as [m'|] eqn:Hm'; [|done].
  intros [= <-]. destruct (IH eq_refl) as (? & ? & ws & Hws & ->).
  split_and!; [done..|]. exists (c :: ws). split; [by constructor | done].
Qed.

Lemma trimStart_blank_app ws s :
  blank ws → Str.trimStart (ws ++ s) = Str.trimStart s.
Proof. induction 1 as [|c ws Hc _ IH]; [done|]. simpl. by rewrite Hc. Qed.

Lemma trim_blank_app ws s : blank ws → Str.trim (ws ++ s) = Str.trim s.
Proof. intros Hws. unfold Str.trim. by rewrite trimStart_blank_app. Qed.

(** A line that is not blank and whose trimmed front holds no line
    terminator matches, with the same trimmed value. *)
Lemma matchSpacesDotPlus_nonblank rest :
  ¬ blank rest → noLineTerminator rest →
  ∃ m, Text.matchSpacesDotPlus rest = Some m ∧ Str.trim m = Str.trim rest.
Proof.
  induction rest as [|c rest IH]; [by intros []; constructor|].
  intros Hnb Hno. simpl.
  assert (Hwhole : Text.matchDotPlus (c :: rest) = Some (c :: rest))
    by by apply matchDotPlus_Some.
  destruct (Str.isWhiteSpace c) eqn:Hc; [|by exists (c :: rest)].
  destruct (IH) as (m & -> & Hm).
  - intros Hb. apply Hnb. by constructor.
  - by apply Forall_cons in Hno as [_ ?].
  - exists m. split; [done|]. rewrite Hm.
    symmetry. apply (trim_blank_app [c]). by repeat constructor.
Qed.

Lemma matchLine_Some line num capture :
  Text.matchLine line = Some (num, capture) →
  twoDigitKey num = true ∧ capture ≠ [] ∧ noLineTerminator capture
  ∧ ∃ ws, blank ws ∧ line = num ++ unit_of ":" :: ws ++ capture.
Proof.
  unfold Text.matchLine. destruct line as [|d1 [|d2 [|colon rest]]]; try done.
  destruct (Text.isDecimal d1 && Text.isDecimal d2 && (colon =? unit_of ":")) eqn:Hd;
    [|done].
  apply andb_true_iff in Hd as [[H1 H2]%andb_true_iff ->%N.eqb_eq].
  destruct (Text.matchSpacesDotPlus rest) as [m|] eqn:Hm; [|done].
  intros [= <- <-]. apply matchSpacesDotPlus_Some in Hm as (? & ? & ws & ? & ->).
  split_and!; [|done..|by exists ws].
  simpl. unfold isDigit. unfold Text.isDecimal in *. by rewrite H1, H2.
Qed.

Lemma matchLine_exported num w :
  twoDigitKey num = true → ¬ blank w → noLineTerminator w →
  ∃ m, Text.matchLine (num ++ js ": " ++ w) = Some (num, m)
       ∧ Str.trim m = Str.trim w.
Proof.
  intros Hk Hw Hno. destruct num as [|d1 [|d2 [|? ?]]]; try done.
  simpl in Hk. apply andb_true_iff in Hk as [H1 H2].
  destruct (matchSpacesDotPlus_nonblank (unit_of " " :: w)) as (m & Hm & Htrim).
  - intros Hb. apply Hw. by inversion Hb.
  - by constructor.
  - exists m. split.
    + change ([d1; d2] ++ js ": " ++ w) with (d1 :: d2 :: unit_of ":" :: unit_of " " :: w).
      unfold Text.matchLine.
      replace (Text.isDecimal d1) with true by done.
      replace (Text.isDecimal d2) with true by done.
      rewrite N.eqb_refl. cbn [andb]. by rewrite Hm.
    + rewrite Htrim. apply (trim_blank_app [unit_of " "]). by repeat constructor.
Qed.

Lemma importWords_lines text :
  importWords text = foldl importLine ∅ (Text.split Text.LF text).
Proof. done. Qed.

Lemma import_exported_lines (es : list (jstr * jstr)) imported k :
  NoDup es.*1 →
  Forall (λ e, twoDigitKey e.1 = true ∧ ¬ blank e.2 ∧ noLineTerminator e.2) es →
  foldl importLine imported ((λ e, e.1 ++ js ": " ++ e.2) <$> es) !! k
  = match JsMap.get es k with
    | Some w => Some (Str.trim w)
    | None => imported !! k
    end.
Proof.
  intros Hnd Hes. revert imported.
  induction Hes as [|[num w] es (Hk & Hw & Hno) Hes IH]; intros imported; [done|].
  apply NoDup_cons in Hnd as [Hnum Hnd]. rewrite fmap_cons. cbn [foldl].
  rewrite (IH Hnd). cbn [JsMap.get fst snd].
  destruct (matchLine_exported num w Hk Hw Hno) as (m & Hm & Htrim).
  unfold importLine. rewrite Hm, Htrim.
  destruct (decide (num = k)) as [<-|Hnk].
  - destruct (JsMap.get es num) eqn:Hget.
    + exfalso. apply Hnum. apply (proj1 (has_elem_of es num)).
      unfold JsMap.has. by rewrite Hget.
    + by rewrite lookup_insert_eq.
  - destruct (JsMap.get es k); [done|]. by rewrite lookup_insert_ne.
Qed.

End TextFormat.

Section ImportExport.

Lemma Forall_trimStart (P : N → Prop) s : Forall P s → Forall P (Str.trimStart s).
Proof.
  intros Hs. destruct (trimStart_suffix s) as (pre & Hpre & _).
  rewrite Hpre in Hs. by apply Forall_app in Hs as [_ ?].
Qed.

Lemma Forall_trim (P : N → Prop) s : Forall P s → Forall P (Str.trim s).
Proof.
  intros Hs. unfold Str.trim, Str.trimEnd.
  by apply Forall_reverse, Forall_trimStart, Forall_reverse, Forall_trimStart.
Qed.

Lemma twoDigitKey_no_LF num : twoDigitKey num = true → Text.LF ∉ num.
Proof.
  destruct num as [|d1 [|d2 [|? ?]]]; try done. simpl.
  intros [H1 H2]%andb_true_iff. unfold isDigit, Text.LF in *. units.
  rewrite !not_elem_of_cons. split_and!; [lia | lia | apply not_elem_of_nil].
Qed.

Lemma noLineTerminator_no_LF s : noLineTerminator s → Text.LF ∉ s.
Proof.
  intros Hs Hin. unfold noLineTerminator in Hs. rewrite Forall_forall in Hs.
  by specialize (Hs _ Hin).
Qed.

Lemma get_filter {V} (P : jstr * V → Prop) `{!∀ e, Decision (P e)}
    (es : list (jstr * V)) k :
  NoDup es.*1 →
  JsMap.get (filter P es) k =
  match JsMap.get es k with
  | Some v => if decide (P (k, v)) then Some v else None
  | None => None
  end.
Proof.
  induction es as [|[k0 v0] es IH]; [done|].
  intros [Hk0 Hnd]%NoDup_cons. rewrite filter_cons. cbn [JsMap.get].
  destruct (decide (k0 = k)) as [->|Hk].
  - destruct (decide (P (k, v0))).
    + cbn [JsMap.get]. by rewrite decide_True.
    + rewrite (IH Hnd). destruct (JsMap.get es k) eqn:Hget; [|done].
      exfalso. apply Hk0. apply (proj1 (has_elem_of es k)).
      unfold JsMap.has. by rewrite Hget.
  - destruct (decide (P (k0, v0))); [|by apply IH].
    cbn [JsMap.get]. rewrite decide_False by done. by apply IH.
Qed.

Lemma importWords_invariant (P : jstr → jstr → Prop) lines imported :
  (∀ line num capture, Text.matchLine line = Some (num, capture) →
     P num (Str.trim capture)) →
  map_Forall P imported → map_Forall P (foldl importLine imported lines).
Proof.
  intros HP. revert imported.
  induction lines as [|line lines IH]; intros imported Hm; [done|].
  cbn [foldl]. apply IH. unfold importLine.
  destruct (Text.matchLine line) as [[num capture]|] eqn:Hl; [|done].
  apply map_Forall_insert_2; [by eapply HP | done].
Qed.

End ImportExport.

Lemma export_import_lookup (entries : list (jstr * jstr)) (k : jstr) :
  NoDup entries.*1 →
  (∀ e, e ∈ entries → ¬ blank e.2 →
        twoDigitKey e.1 = true ∧ noLineTerminator e.2) →
  importWords (exportWords entries) !! k
  = Str.trim <$> JsMap.get (filter (λ e, Str.falsy (Str.trim e.2) = false) entries) k.
Proof.
  intros Hnd Hes. unfold exportWords.
  remember (filter (λ e, Str.falsy (Str.trim e.2) = false) entries) as es eqn:Ees.
  assert (Hnd' : NoDup es.*1).
  { subst es. eapply sublist_NoDup; [exact Hnd|].
    apply (fmap_sublist fst), sublist_filter. }
  assert (Hes' : Forall (λ e, twoDigitKey e.1 = true ∧ ¬ blank e.2
                              ∧ noLineTerminator e.2) es).
  { subst es. apply Forall_forall. intros e [Hf He]%list_elem_of_filter.
    apply falsy_trim_false in Hf. destruct (Hes e He Hf). done. }
  clear Ees. rewrite importWords_lines.
  destruct (decide (es = [])) as [->|Hne]; [done|].
  rewrite split_join.
  - rewrite (import_exported_lines es ∅ k Hnd' Hes'), lookup_empty.
    by destruct (JsMap.get es k).
  - by destruct es.
  - apply Forall_fmap, Forall_forall. intros [num w] Hin. simpl.
    rewrite Forall_forall in Hes'. destruct (Hes' _ Hin) as (Hk & _ & Hno).
    rewrite not_elem_of_app. split; [by apply twoDigitKey_no_LF|].
    change (js ": " ++ w) with (unit_of ":" :: unit_of " " :: w).
    rewrite !not_elem_of_cons. split_and!; [done | done |].
    by apply noLineTerminator_no_LF.
Qed.

(** X8: exporting a table and importing the text again gives every slot that
    holds a word its trimmed word, and gives the other slots nothing.  The
    keys of the filled slots are two decimal digits and their words hold no
    line terminator. *)
Theorem export_import (entries : list (jstr * jstr)) (k : jstr) :
  NoDup entries.*1 →
  (∀ e, e ∈ entries → ¬ blank e.2 →
        twoDigitKey e.1 = true ∧ noLineTerminator e.2) →
  importWords (exportWords entries) !! k
  = Str.trim <$> JsMap.get (filter (λ e, Str.falsy (Str.trim e.2) = false) entries) k.
Proof. apply export_import_lookup. Qed.

Lemma export_import_witness :
  importWords (exportWords [(js "07", js " Tea "); (js "12", js "tan"); (js "30", js "  ")])
    !! js "07" = Some (js "Tea").
Proof.
  rewrite export_import.
  - by vm_compute.
  - apply (bool_decide_eq_true_1 _). by vm_compute.
  - intros e He Hb. apply list_elem_of_In in He. simpl in He.
    destruct_or!; try done; subst e; simpl in *.
    + split; [done|]. by repeat constructor.
    + split; [done|]. by repeat constructor.
    + exfalso. apply Hb. by repeat constructor.
Defined.

(** X9: a line that ends in a line terminator (a carriage return, for a file
    with CR LF line ends) does not match, and [importWords] passes over it:
    the text behind it is imported as if the line were not there. *)
Theorem import_skips_terminated_line (line text : jstr) (c : N) :
  last line = Some c → Text.isLineTerminator c = true → Text.LF ∉ line →
  Text.matchLine line = None
  ∧ importWords (line ++ Text.LF :: text) = importWords text.
Proof.
  intros Hlast Hc Hlf.
  assert (Hnone : Text.matchLine line = None).
  { destruct (Text.matchLine line) as [[num capture]|] eqn:Hm; [|done].
    exfalso. apply matchLine_Some in Hm as (_ & Hne & Hno & ws & _ & ->).
    rewrite app_comm_cons, app_assoc, last_app in Hlast.
    destruct (last capture) as [x|] eqn:Hx; [|by apply last_None in Hx].
    injection Hlast as ->. apply last_Some_elem_of in Hx.
    unfold noLineTerminator in Hno. rewrite Forall_forall in Hno.
    specialize (Hno _ Hx). congruence. }
  split; [done|]. rewrite !importWords_lines, split_app_sep by done.
  cbn [foldl]. unfold importLine at 2. by rewrite Hnone.
Qed.

Lemma import_skips_terminated_line_witness :
  importWords (js "07: tea" ++ [13] ++ Text.LF :: js "12: tan")
  = importWords (js "12: tan").
Proof.
  apply (import_skips_terminated_line (js "07: tea" ++ [13]) (js "12: tan") 13).
  - reflexivity.
  - reflexivity.
  - intros Hin%list_elem_of_In. vm_compute in Hin. by destruct_or!.
Defined.

Lemma imported_wellformed (text k v : jstr) :
  importWords text !! k = Some v →
  twoDigitKey k = true ∧ Str.trim v = v ∧ noLineTerminator v.
Proof.
  revert k v. rewrite importWords_lines.
  apply (importWords_invariant
           (λ k v, twoDigitKey k = true ∧ Str.trim v = v ∧ noLineTerminator v));
    [|apply map_Forall_empty].
  intros line num capture (Hk & _ & Hno & _)%matchLine_Some.
  split_and!; [done | apply trim_id, trim_trimmed | by apply Forall_trim].
Qed.

(** X10: in the table that [importWords] builds, every key is two decimal
    digits and every word is trimmed and free of line terminators. *)
Theorem importWords_wellformed (text k v : jstr) :
  importWords text !! k = Some v →
  twoDigitKey k = true ∧ Str.trim v = v ∧ noLineTerminator v.
Proof. apply imported_wellformed. Qed.

Lemma importWords_wellformed_witness :
  twoDigitKey (js "07") = true ∧ Str.trim (js "tea") = js "tea"
  ∧ noLineTerminator (js "tea").
Proof.
  apply (importWords_wellformed (js "x" ++ Text.LF :: js "07:   tea  ")).
  by vm_compute.
Defined.

(** X11: exporting an imported table and importing it again gives the same
    table, without the slots whose word is empty. *)
Theorem import_export_import (text : jstr) (entries : list (jstr * jstr)) (k : jstr) :
  NoDup entries.*1 →
  (∀ k, JsMap.get entries k = importWords text !! k) →
  importWords (exportWords entries) !! k
  = match importWords text !! k with
    | Some v => if Str.falsy v then None else Some v
    | None => None
    end.
Proof.
  intros Hnd Hentries.
  assert (Hwf : ∀ e, e ∈ entries →
            twoDigitKey e.1 = true ∧ Str.trim e.2 = e.2 ∧ noLineTerminator e.2).
  { intros [num w] He. apply (imported_wellformed text).
    rewrite <- Hentries. by apply elem_of_get. }
  rewrite export_import_lookup; [|done|].
  - rewrite get_filter by done. rewrite Hentries.
    destruct (importWords text !! k) as [v|] eqn:Hv; [|done].
    assert (Htrim : Str.trim v = v).
    { apply (imported_wellformed text k v Hv). }
    simpl. rewrite Htrim. destruct (Str.falsy v); simpl; [done|].
    by rewrite Htrim.
  - intros e He _. destruct (Hwf e He) as (? & _ & ?). done.
Qed.

Lemma import_export_import_witness :
  importWords (exportWords [(js "07", js "tea")]) !! js "07" = Some (js "tea").
Proof.
  rewrite (import_export_import (js "07:  tea ") [(js "07", js "tea")]).
  - by vm_compute.
  - apply (bool_decide_eq_true_1 _). by vm_compute.
  - intros k. replace (importWords (js "07:  tea "))
      with (<[js "07" := js "tea"]> (∅ : gmap jstr jstr)) by by vm_compute.
    cbn [JsMap.get]. destruct (decide (js "07" = k)) as [<-|Hk].
    + by rewrite lookup_insert_eq.
    + by rewrite lookup_insert_ne.
Defined.

(** ** More on the conflict map *)

Section ConflictMore.

Variable doubleMetaphone : jstr → jstr * jstr.

Lemma elem_of_filledWords entries num w :
  (num, w) ∈ filledWords entries ↔
  ∃ w0, (num, w0) ∈ entries ∧ ¬ blank w0 ∧ w = Str.toLowerCase (Str.trim w0).
Proof.
  unfold filledWords. rewrite list_elem_of_fmap. split.
  - intros ([n0 w0] & [= -> ->] & [Hf Hin]%list_elem_of_filter). simpl in *.
    exists w0. split_and!; [done| |done].
    apply andb_true_iff in Hf as [_ Hf%negb_true_iff]. by apply falsy_trim_false.
  - intros (w0 & Hin & Hw0 & ->). exists (num, w0). split; [done|].
    apply list_elem_of_filter. split; [|done]. simpl.
    apply falsy_trim_false in Hw0. rewrite Hw0.
    destruct w0; [by vm_compute in Hw0 | done].
Qed.

Lemma add_NoDup s x : NoDup s → NoDup (JsSet.add s x).
Proof.
  intros Hs. unfold JsSet.add. case_bool_decide; [done|].
  apply NoDup_app. split_and!; [done | | apply NoDup_singleton].
  by intros y Hy ->%list_elem_of_singleton.
Qed.

Lemma foldl_add_NoDup l s : NoDup s → NoDup (foldl JsSet.add s l).
Proof.
  revert s. induction l as [|x l IH]; intros s Hs; [done|].
  simpl. by apply IH, add_NoDup.
Qed.

Lemma numbersOfGroup_NoDup W g : NoDup (numbersOfGroup W g).
Proof.
  unfold numbersOfGroup.
  assert (H : ∀ ws s, NoDup s →
            NoDup (foldl (λ s w, foldl JsSet.add s (default [] (JsMap.get W w))) s ws)).
  { induction ws as [|w ws IH]; intros s Hs; [done|].
    simpl. by apply IH, foldl_add_NoDup. }
  apply H, NoDup_nil_2.
Qed.

Lemma NoDup_other `{EqDecision A} (l : list A) a :
  NoDup l → (1 < length l)%nat → ∃ b, b ∈ l ∧ b ≠ a.
Proof.
  destruct l as [|x [|y l]]; simpl; [lia | lia |].
  intros [Hx _]%NoDup_cons _. apply not_elem_of_cons in Hx as [Hxy _].
  destruct (decide (x = a)) as [->|Hxa].
  - exists y. split; [right; left | congruence].
  - exists x. split; [left | done].
Qed.

Lemma conflicts_keys_NoDup W gs C :
  NoDup C.*1 → NoDup (foldl (conflicts_of_group W) C gs).*1.
Proof.
  revert C. induction gs as [|g gs IH]; intros C HC; [done|].
  simpl. apply IH. unfold conflicts_of_group. cbv zeta.
  case_match; [|done].
  assert (Hset : ∀ (nl nums : list jstr) (C : list (jstr * list jstr)),
            NoDup C.*1 →
            NoDup (foldl (λ C num, JsMap.set C num (filter (λ n, n ≠ num) nl))
                         C nums).*1).
  { intros nl nums. induction nums as [|n ns IHn]; intros C' HC'; [done|].
    simpl. by apply IHn, set_keys_NoDup. }
  by apply Hset.
Qed.

Lemma homonymConflicts_keys_NoDup entries :
  NoDup (homonymConflicts doubleMetaphone entries).*1.
Proof.
  unfold homonymConflicts. cbv zeta. case_match; [apply NoDup_nil_2|].
  apply conflicts_keys_NoDup, NoDup_nil_2.
Qed.

Lemma homonymConflicts_key_filled entries a l :
  JsMap.get (homonymConflicts doubleMetaphone entries) a = Some l →
  a ∈ (filledWords entries).*1
  ∧ ∃ g, (1 < length (numbersOfGroup
                        (foldl (λ m e, JsMap.push m e.2 e.1) [] (filledWords entries)) g))%nat
         ∧ a ∈ numbersOfGroup
                 (foldl (λ m e, JsMap.push m e.2 e.1) [] (filledWords entries)) g
         ∧ l = filter (λ n, n ≠ a)
                 (numbersOfGroup
                    (foldl (λ m e, JsMap.push m e.2 e.1) [] (filledWords entries)) g).
Proof.
  unfold homonymConflicts. cbv zeta. case_match; [done|].
  intros [Hl | (g & _ & Hlen & Ha & ->)]%conflicts_sound; [done|].
  split; [|by exists g].
  apply elem_of_numbersOfGroup in Ha as (w & _ & Ha%wordToNumbers_spec).
  apply list_elem_of_fmap. by exists (a, w).
Qed.

Lemma filledWords_length entries :
  length (filledWords entries) = filledCount entries.
Proof.
  unfold filledWords, filledCount. rewrite length_fmap.
  induction entries as [|[num w] entries IH]; [done|].
  rewrite fmap_cons, !filter_cons. simpl.
  destruct (Str.falsy (Str.trim w)) eqn:Hw.
  - rewrite andb_false_r. by rewrite !decide_False by done.
  - assert (Str.falsy w = false) as -> by (destruct w; [by vm_compute in Hw | done]).
    rewrite !decide_True by done. simpl. by rewrite IH.
Qed.

End ConflictMore.



(** X13: a list of the conflict map is never empty, every number in it has
    an entry of its own that lists the first number back, and the map never
    has exactly one entry. *)
Theorem conflict_lists_nonempty
    (doubleMetaphone : jstr → jstr * jstr) (entries : list (jstr * jstr)) :
  NoDup entries.*1 →
  (∀ a l, JsMap.get (homonymConflicts doubleMetaphone entries) a = Some l →
     l ≠ []
     ∧ ∀ b, b ∈ l →
         ∃ l', JsMap.get (homonymConflicts doubleMetaphone entries) b = Some l'
               ∧ a ∈ l')
  ∧ homonymCount doubleMetaphone entries ≠ 1%nat.
Proof.
  intros Hnd.
  assert (H : ∀ a l, JsMap.get (homonymConflicts doubleMetaphone entries) a = Some l →
     l ≠ []
     ∧ ∀ b, b ∈ l →
         ∃ l', JsMap.get (homonymConflicts doubleMetaphone entries) b = Some l'
               ∧ a ∈ l').
  { intros a l Hl. split.
    - destruct (homonymConflicts_key_filled _ _ _ _ Hl) as (_ & g & Hlen & Ha & ->).
      destruct (NoDup_other _ a (numbersOfGroup_NoDup _ g) Hlen) as (b & Hb & Hba).
      intros Hnil. assert (Hin : b ∈ filter (λ n, n ≠ a) (numbersOfGroup
        (foldl (λ m e, JsMap.push m e.2 e.1) [] (filledWords entries)) g))
        by by apply list_elem_of_filter.
      rewrite Hnil in Hin. by apply elem_of_nil in Hin.
    - intros b Hb.
      apply (conflictsWith_sym doubleMetaphone entries a b Hnd). by exists l. }
  split; [done|]. unfold homonymCount.
  destruct (homonymConflicts doubleMetaphone entries) as [|[a l] [|? ?]] eqn:E;
    [done | | done].
  exfalso. assert (Hl : JsMap.get [(a, l)] a = Some l).
  { simpl. by rewrite decide_True. }
  destruct (H a l Hl) as [Hne Hback].
  destruct l as [|b l]; [done|].
  destruct (Hback b) as (l' & Hb & _); [left|].
  simpl in Hb. case_decide as Hab; [|done]. subst b.
  rewrite <- E in Hl.
  destruct (homonymConflicts_key_filled _ _ _ _ Hl) as (_ & g & _ & _ & Heq).
  assert (Hin : a ∈ a :: l) by left. rewrite Heq in Hin.
  by apply list_elem_of_filter in Hin as [? _].
Qed.

Lemma conflict_lists_nonempty_witness :
  homonymCount firstSound [(js "00", js "there"); (js "01", js "their")] ≠ 1%nat.
Proof.
  apply (conflict_lists_nonempty firstSound
           [(js "00", js "there"); (js "01", js "their")]).
  apply (bool_decide_eq_true_1 _). by vm_compute.
Defined.

(** ** The statistics *)

Section Statistics.

Variable doubleMetaphone : jstr → jstr * jstr.

Lemma wordEntries_keys entries :
  (wordEntries doubleMetaphone entries).*1 = allKeys.
Proof.
  unfold wordEntries, allKeys. rewrite <- list_fmap_compose.
  by apply list_fmap_ext.
Qed.

Lemma elem_of_wordEntries entries num e :
  (num, e) ∈ wordEntries doubleMetaphone entries →
  e = wordEntry doubleMetaphone entries num.
Proof.
  unfold wordEntries. by intros (i & [= -> ->] & _)%list_elem_of_fmap.
Qed.

Lemma length_le_of_keys {A B} (l : list (jstr * A)) (k : list (jstr * B)) :
  NoDup l.*1 → (∀ x, x ∈ l.*1 → x ∈ k.*1) → (length l ≤ length k)%nat.
Proof.
  intros Hnd Hsub. rewrite <- (length_fmap fst l), <- (length_fmap fst k).
  by apply submseteq_length, NoDup_submseteq.
Qed.

End Statistics.

(** X14: of the three numbers of the statistics line, the number of valid
    words and the number of slots with a homonym conflict never exceed the
    number of filled slots, which never exceeds the number of entries. *)
Theorem statistics_bounded
    (doubleMetaphone : jstr → jstr * jstr) (entries : list (jstr * jstr)) :
  NoDup entries.*1 →
  (validCount doubleMetaphone entries ≤ filledCount entries)%nat
  ∧ (homonymCount doubleMetaphone entries ≤ filledCount entries)%nat
  ∧ (filledCount entries ≤ length entries)%nat.
Proof.
  intros Hnd. rewrite <- !filledWords_length. split_and!.
  - unfold validCount. apply length_le_of_keys.
    + eapply sublist_NoDup; [apply allKeys_NoDup|].
      rewrite <- (wordEntries_keys doubleMetaphone entries).
      apply (fmap_sublist fst), sublist_filter.
    + intros num ([num' e] & -> & [He Hin]%list_elem_of_filter)%list_elem_of_fmap.
      simpl in *. apply elem_of_wordEntries in Hin. subst e.
      apply andb_true_iff in He as [He _]. apply negb_true_iff in He.
      cbn [wordEntry Entry.word] in He. unfold wordAt in He.
      destruct (JsMap.get entries num') as [w|] eqn:Hget; [|by vm_compute in He].
      simpl in He. apply list_elem_of_fmap.
      exists (num', Str.toLowerCase (Str.trim w)). split; [done|].
      apply elem_of_filledWords. exists w.
      split_and!; [by apply elem_of_get | by apply falsy_trim_false | done].
  - unfold homonymCount. apply length_le_of_keys.
    + apply homonymConflicts_keys_NoDup.
    + intros a Ha%has_elem_of. unfold JsMap.has in Ha.
      destruct (JsMap.get _ a) as [l|] eqn:Hl; [|done].
      by apply homonymConflicts_key_filled in Hl as [? _].
  - unfold filledWords. rewrite length_fmap. apply length_filter.
Qed.

Lemma statistics_bounded_witness :
  (validCount firstSound [(js "12", js "tan"); (js "13", js "ton"); (js "20", js " ")]
   ≤ filledCount [(js "12", js "tan"); (js "13", js "ton"); (js "20", js " ")])%nat.
Proof.
  apply (statistics_bounded firstSound
           [(js "12", js "tan"); (js "13", js "ton"); (js "20", js " ")]).
  apply (bool_decide_eq_true_1 _). by vm_compute.
Defined.

(** ** The other functions of the homonym service *)

Section Service.

Variable doubleMetaphone : jstr → jstr * jstr.


End Service.





(** ** Tabs *)

Section Tabs.

Variable stringifyTabs : list Tab.t → jstr.
Variable stringifyId : option jstr → jstr.

Lemma renameTab_ids st tabId newName :
  Tab.id <$> tabs (renameTab stringifyTabs st tabId newName) = Tab.id <$> tabs st.
Proof.
  unfold renameTab, setTabs. cbn [tabs].
  rewrite <- list_fmap_compose. apply list_fmap_ext.
  intros i t _. simpl. by case_bool_decide.
Qed.

Lemma filter_ids_NoDup (l : list Tab.t) tabId :
  NoDup (Tab.id <$> l) → NoDup (Tab.id <$> filter (λ t, Tab.id t ≠ tabId) l).
Proof.
  intros Hnd. eapply sublist_NoDup; [exact Hnd|].
  apply (fmap_sublist Tab.id), sublist_filter.
Qed.

Lemma removeTab_tabs st tabId :
  tabs (removeTab stringifyTabs stringifyId st tabId)
  = filter (λ t, Tab.id t ≠ tabId) (tabs st).
Proof.
  unfold removeTab. cbv zeta. cbn [tabs].
  destruct (filter _ (tabs st)) as [|first rest]; [done|].
  by case_bool_decide.
Qed.

Lemma removeTab_active st tabId :
  activeTabId (removeTab stringifyTabs stringifyId st tabId)
  = match filter (λ t, Tab.id t ≠ tabId) (tabs st) with
    | first :: _ =>
      if bool_decide (activeTabId st = Some tabId) then Some (Tab.id first)
      else activeTabId st
    | [] => activeTabId st
    end.
Proof.
  unfold removeTab. cbv zeta. cbn [activeTabId].
  destruct (filter _ (tabs st)) as [|first rest]; [done|].
  by case_bool_decide.
Qed.

Lemma remove_consistent st tabId :
  tabsConsistent st → (length (tabs st) ≠ 1)%nat →
  tabsConsistent (removeTab stringifyTabs stringifyId st tabId).
Proof.
  intros (Hnd & Hne & a & Ha & Hin) Hlen. unfold tabsConsistent.
  rewrite removeTab_tabs, removeTab_active.
  assert (Hother : ∃ t, t ∈ tabs st ∧ Tab.id t ≠ tabId).
  { destruct (NoDup_other (Tab.id <$> tabs st) tabId Hnd) as (b & Hb & Hbt).
    - rewrite length_fmap. destruct (tabs st) as [|? [|? ?]]; simpl in *; [done|done|lia].
    - apply list_elem_of_fmap in Hb as (t & -> & Ht). by exists t. }
  destruct Hother as (t0 & Ht0 & Hid0).
  assert (Hin0 : t0 ∈ filter (λ t, Tab.id t ≠ tabId) (tabs st))
    by by apply list_elem_of_filter.
  split_and!; [by apply filter_ids_NoDup | |].
  - intros Hnil. rewrite Hnil in Hin0. by apply elem_of_nil in Hin0.
  - destruct (filter (λ t, Tab.id t ≠ tabId) (tabs st)) as [|first rest] eqn:Hf.
    { by apply elem_of_nil in Hin0. }
    case_bool_decide as Hact.
    + exists (Tab.id first). split; [done|]. rewrite fmap_cons. left.
    + exists a. split; [done|]. rewrite <- Hf.
      apply list_elem_of_fmap in Hin as (t & -> & Ht).
      apply list_elem_of_fmap. exists t. split; [done|].
      apply list_elem_of_filter. split; [|done]. congruence.
Qed.

Lemma activeTab_consistent st : tabsConsistent st → is_Some (activeTab st).
Proof.
  intros (_ & _ & a & Ha & (t & -> & Ht)%list_elem_of_fmap).
  unfold activeTab. rewrite Ha.
  destruct (List.find _ (tabs st)) as [t'|] eqn:Hfind; [done|].
  apply list_elem_of_In in Ht.
  pose proof (List.find_none _ _ Hfind t Ht) as Hnone. cbv beta in Hnone.
  by apply bool_decide_eq_false_1 in Hnone.
Qed.

Lemma cleanup_lookup tabId store k :
  cleanupTabStorage tabId store !! k
  = if bool_decide (k ∈ keysToRemove tabId) then None else store !! k.
Proof.
  unfold cleanupTabStorage. revert store.
  induction (keysToRemove tabId) as [|key keys IH]; intros store.
  { cbn [foldl]. by rewrite bool_decide_eq_false_2 by apply not_elem_of_nil. }
  cbn [foldl]. rewrite IH.
  destruct (decide (k = key)) as [->|Hk].
  - rewrite lookup_delete_eq, (bool_decide_eq_true_2 (key ∈ key :: keys)) by left.
    by case_bool_decide.
  - rewrite lookup_delete_ne by done.
    destruct (decide (k ∈ keys)) as [Hin|Hout].
    + by rewrite !bool_decide_eq_true_2 by (done || by right).
    + rewrite !bool_decide_eq_false_2; [done | | done].
      intros [->|?]%elem_of_cons; done.
Qed.

Lemma removeTab_storage_lookup st tabId k :
  k ≠ js "phonetic-tabs" → k ≠ js "phonetic-activeTab" →
  storage (removeTab stringifyTabs stringifyId st tabId) !! k
  = if bool_decide (k ∈ keysToRemove tabId) then None else storage st !! k.
Proof.
  intros Ht Ha. unfold removeTab. cbv zeta. cbn [storage].
  rewrite cleanup_lookup. case_bool_decide; [done|].
  destruct (filter _ (tabs st)) as [|first rest].
  - unfold setTabs. cbn [storage fullKey]. by rewrite lookup_insert_ne.
  - case_bool_decide; unfold setActiveTabId, setTabs; cbn [storage fullKey];
      by rewrite !lookup_insert_ne.
Qed.

End Tabs.

(** X17: as long as the tab bar is used to remove tabs, the tabs stay
    consistent: at least one tab exists, ids are pairwise distinct and the
    active id is the id of a tab.  Adding a tab with a fresh id makes it
    the active tab; removing one (whatever the answer to the question),
    renaming one and finishing an edit keep the state consistent; the active
    tab is found. *)
Theorem tabs_stay_consistent
    (stringifyTabs : list Tab.t → jstr) (stringifyId : option jstr → jstr)
    (st : TabState) :
  tabsConsistent st →
  (∀ newId now name, newId ∉ Tab.id <$> tabs st →
     tabsConsistent (addTab stringifyTabs stringifyId st newId now name).1
     ∧ activeTabId (addTab stringifyTabs stringifyId st newId now name).1 = Some newId)
  ∧ (∀ tabId confirmed,
       tabsConsistent (handleRemove stringifyTabs stringifyId st tabId confirmed))
  ∧ (∀ tabId newName, tabsConsistent (renameTab stringifyTabs st tabId newName))
  ∧ (∀ tabId editingName,
       tabsConsistent (handleFinishEdit stringifyTabs st tabId editingName))
  ∧ is_Some (activeTab st).
Proof.
  intros Hst.
  assert (Hren : ∀ tabId newName,
            tabsConsistent (renameTab stringifyTabs st tabId newName)).
  { intros tabId newName. destruct Hst as (Hnd & Hne & a & Ha & Hin).
    unfold tabsConsistent. rewrite renameTab_ids. split_and!; [done| |by exists a].
    intros Hnil. apply (f_equal (fmap Tab.id)) in Hnil.
    rewrite renameTab_ids in Hnil. by destruct (tabs st). }
  split_and!; [| | done | | by apply activeTab_consistent].
  - intros newId now name Hfresh. split; [|done].
    destruct Hst as (Hnd & Hne & a & Ha & Hin).
    unfold tabsConsistent, addTab. cbv zeta.
    cbn [fst tabs activeTabId setActiveTabId setTabs Tab.id].
    rewrite fmap_app. split_and!.
    + apply NoDup_app. split_and!; [done | | apply NoDup_singleton].
      by intros x Hx ->%list_elem_of_singleton.
    + by destruct (tabs st).
    + exists newId. split; [done|]. apply elem_of_app. right. left.
  - intros tabId confirmed. unfold handleRemove.
    destruct (length (tabs st) =? 1)%nat eqn:Hlen; [done|].
    destruct confirmed; [|done].
    apply remove_consistent; [done|]. by apply Nat.eqb_neq.
  - intros tabId editingName. unfold handleFinishEdit. by case_match.
Qed.

Lemma tabs_stay_consistent_witness :
  let st := {| tabs := [ {| Tab.id := js "a"; Tab.name := js "System 1"; Tab.createdAt := 1 |};
                         {| Tab.id := js "b"; Tab.name := js "System 2"; Tab.createdAt := 2 |} ];
               activeTabId := Some (js "a");
               storage := ∅ |} in
  tabsConsistent (handleRemove (λ _, []) (λ _, []) st (js "a") true).
Proof.
  intros st. apply (tabs_stay_consistent (λ _, []) (λ _, []) st).
  split_and!.
  - apply (bool_decide_eq_true_1 _). by vm_compute.
  - done.
  - exists (js "a"). split; [done | left].
Defined.



(** X19: removing a tab deletes the three stored values of its word list,
    and leaves the stored values of the word list of every other tab as they
    were. *)
Theorem removeTab_storage
    (stringifyTabs : list Tab.t → jstr) (stringifyId : option jstr → jstr)
    (st : TabState) (tabId : jstr) :
  tabId ≠ [] →
  (∀ key, key ∈ wordListKeys →
     storage (removeTab stringifyTabs stringifyId st tabId)
       !! fullKey key (Some tabId) = None)
  ∧ (∀ key other, key ∈ wordListKeys → other ≠ [] → other ≠ tabId →
       storage (removeTab stringifyTabs stringifyId st tabId)
         !! fullKey key (Some other)
       = storage st !! fullKey key (Some other)).
Proof.
  intros Hid. split.
  - intros key Hkey. destruct tabId as [|c tabId]; [done|]. cbn [fullKey Str.falsy].
    apply list_elem_of_In in Hkey. simpl in Hkey.
    destruct_or!; try done; subst key;
      (rewrite removeTab_storage_lookup; [|differ|differ]);
      rewrite bool_decide_eq_true_2; try done;
      unfold keysToRemove; rewrite !elem_of_cons; auto 10.
  - intros key other Hkey Hother Hne.
    destruct other as [|c other]; [done|]. cbn [fullKey Str.falsy].
    apply list_elem_of_In in Hkey. simpl in Hkey.
    destruct_or!; try done; subst key;
      (rewrite removeTab_storage_lookup; [|differ|differ]);
      rewrite bool_decide_eq_false_2; try done;
      unfold keysToRemove; rewrite !not_elem_of_cons;
      split_and!; try apply not_elem_of_nil; differ.
Qed.

Lemma removeTab_storage_witness :
  storage
    (removeTab (λ _, []) (λ _, [])
       {| tabs := []; activeTabId := None;
          storage := <[js "phonetic-words-b" := js "{}"]>
                       (<[js "phonetic-words-a" := js "{}"]> ∅) |}
       (js "a"))
    !! fullKey (js "phonetic-words") (Some (js "a")) = None.
Proof.
  apply (removeTab_storage (λ _, []) (λ _, []) _ (js "a")); [done | left].
Defined.

(** ** The shape of the groups *)



(** ** The entries of the grid *)

Lemma blank_word_valid_aux num word : blank word → validateWord num word = true.
Proof.
  intros Hw%falsy_trim_iff. unfold validateWord. by rewrite Hw.
Qed.

(** X21: for a slot 00..99, the position warning, when there is one, is a
    non-empty list of keys 00..99 other than the key of the slot, each of
    which the word of the slot satisfies; a slot without a word is valid and
    has no position warning. *)
Theorem wordEntry_positions
    (doubleMetaphone : jstr → jstr * jstr) (entries : list (jstr * jstr)) (num : jstr) :
  twoDigitKey num = true →
  (∀ ps, Entry.validPositions (wordEntry doubleMetaphone entries num) = Some ps →
     ps ≠ [] ∧ (num ∉ ps)
     ∧ ∀ k, k ∈ ps →
         twoDigitKey k = true
         ∧ validateWord k (Entry.word (wordEntry doubleMetaphone entries num)) = true)
  ∧ (blank (wordAt entries num) →
     Entry.isValid (wordEntry doubleMetaphone entries num) = true
     ∧ Entry.validPositions (wordEntry doubleMetaphone entries num) = None).
Proof.
  intros _. unfold wordEntry. cbv zeta.
  cbn [Entry.validPositions Entry.word Entry.isValid].
  split.
  - intros ps Hps. case_match eqn:Hlen; [|done]. injection Hps as <-.
    apply Nat.ltb_lt in Hlen. split_and!.
    + intros Hnil. rewrite Hnil in Hlen. simpl in Hlen. lia.
    + by intros [? _]%list_elem_of_filter.
    + intros k [_ Hk]%list_elem_of_filter.
      destruct (Str.falsy (Str.trim (wordAt entries num))) eqn:Hw.
      { by apply elem_of_nil in Hk. }
      unfold getValidPositionsForWord in Hk. rewrite Hw in Hk.
      apply list_elem_of_filter in Hk as [Hv Hin]. fold allKeys in Hin.
      by apply elem_of_allKeys in Hin.
  - intros Hb. split; [by apply blank_word_valid_aux|].
    rewrite (proj2 (falsy_trim_iff _) Hb). by rewrite filter_nil.
Qed.

Lemma wordEntry_positions_witness :
  Entry.isValid (wordEntry firstSound [(js "12", js "tan")] (js "40")) = true
  ∧ Entry.validPositions (wordEntry firstSound [(js "12", js "tan")] (js "40")) = None.
Proof.
  apply (wordEntry_positions firstSound [(js "12", js "tan")] (js "40")).
  - reflexivity.
  - constructor.
Defined.

(** ** Lines of an imported text *)

Section Lines.

Lemma split_app_last sep s x :
  sep ∉ x → Text.split sep (s ++ sep :: x) = Text.split sep s ++ [x].
Proof.
  intros Hx. induction s as [|c s IH]; simpl.
  - by rewrite N.eqb_refl, split_no_sep.
  - destruct (c =? sep); rewrite IH; [done|].
    pose proof (split_nonempty sep s). by destruct (Text.split sep s).
Qed.

End Lines.

(** X22: the lines of a text are imported in their order: a last line that
    matches sets its slot, whatever an earlier line gave it, and a last line
    that does not match changes nothing. *)
Theorem importWords_last_line (text line : jstr) :
  Text.LF ∉ line →
  importWords (text ++ Text.LF :: line)
  = match Text.matchLine line with
    | Some (num, capture) => <[num := Str.trim capture]> (importWords text)
    | None => importWords text
    end.
Proof.
  intros Hline. rewrite !importWords_lines, split_app_last by done.
  by rewrite foldl_app.
Qed.

Lemma importWords_last_line_witness :
  importWords (js "07: tea" ++ Text.LF :: js "07: tie") !! js "07" = Some (js "tie").
Proof.
  rewrite importWords_last_line.
  - by vm_compute.
  - intros Hin%list_elem_of_In. vm_compute in Hin. by destruct_or!.
Defined.
